(** * The affinity partition map: a chained hash table for 64-bit keys

    Shallow embedding of [src/backend/affinity/utils/hash64.c], of
    [src/backend/affinity/affinity.c] and of the file generator
    [src/backend/affinty/utils/gen_txt.c], with the laws of the table, of
    the partition map and of the generator proved over the embedding.

    Modelling conventions.
    - [size_t] and [uint64_t] are [Z] with the wrap-around modulo [2^64]
      written where the C code can wrap; [affinity_value_t] is [uint32_t].
    - A chain of [Entry] nodes linked by [next] is the list of its nodes in
      link order; the bucket array is the list of its chains.
    - Undefined behaviour of the C code (the remainder by a zero [size], a
      read outside the bucket array) is the outcome [Undef] of the
      [res] monad; a NULL pointer is [None].
    - The outcome of every [malloc]/[calloc] is an input of the operation
      that performs it; [free] has no effect on the model. *)

From Stdlib Require Import ZArith QArith Lia SpecFloat.
From stdpp Require Import base option list fin_maps gmap.

Local Open Scope Z_scope.

(** ** Machine arithmetic *)

Definition wrap64 (z : Z) : Z := z mod 2 ^ 64.
Definition wrap32 (z : Z) : Z := z mod 2 ^ 32.

(** ** Outcomes of C code: a value, or undefined behaviour *)

Inductive res (A : Type) : Type :=
| Ret (a : A)
| Undef.
Arguments Ret {A} a.
Arguments Undef {A}.

Definition bind {A B : Type} (m : res A) (f : A -> res B) : res B :=
  match m with
  | Ret a => f a
  | Undef => Undef
  end.

Notation "'do' x <- m ; f" := (bind m (fun x => f))
  (at level 10, x name, m at level 100, f at level 200,
   format "'[v' 'do'  x  <-  m ; '/' f ']'").

(** ** The allocator

    Whether an allocation succeeds is the environment's choice, the
    boolean [ok] that each allocating operation takes.  [calloc nmemb sz]
    moreover returns NULL, as the C library does, when the byte count
    [nmemb * sz] is not representable in [size_t]: no bucket array has
    [2^61] pointers or more. *)

Definition sizeof_Entry_ptr : Z := 8.

Definition calloc (ok : bool) (nmemb sz : Z) : bool :=
  ok && (nmemb * sz <? 2 ^ 64).

(** ** [double] quotients of two [size_t] values

    [ht_load_factor] converts two [size_t] to [double] and divides them.
    Both steps round as IEEE 754 binary64 does, to 53 significant bits,
    to nearest with ties to even; a [size_t] and a quotient of two of them
    are far from the overflow and the underflow of the format.  A
    [double] is kept as the rational it stands for. *)

Inductive double : Type :=
| NaN
| PInf
| Finite (q : Q).

(** The integer nearest to [n / d], the even one of the two at a tie. *)
Definition round_half_even (n d : Z) : Z :=
  let f := n / d in
  let r := n mod d in
  if 2 * r <? d then f
  else if d <? 2 * r then f + 1
  else if Z.even f then f else f + 1.

(** [(double) n] for a [size_t] [n]: exact below [2^53], and above it the
    nearest multiple of [2^e] where [n] has [53 + e] bits. *)
Definition double_of_size_t (n : Z) : Z :=
  if n <? 2 ^ 53 then n
  else let e := Z.log2 n - 52 in round_half_even n (2 ^ e) * 2 ^ e.

(** The exponent [E] with [2^E <= x / y < 2^(E+1)], for [0 < x] and
    [0 < y]. *)
Definition quotient_exponent (x y : Z) : Z :=
  if y <=? x then Z.log2 (x / y) else - Z.log2_up ((y + x - 1) / x).

(** [x / y] for two [double]s of non-negative integer value: the IEEE
    results of a zero divisor, and otherwise the quotient rounded to the
    nearest multiple of [2^(E - 52)]. *)
Definition double_div (x y : Z) : double :=
  if y =? 0 then (if x =? 0 then NaN else PInf)
  else if x =? 0 then Finite 0
  else
    let e := quotient_exponent x y - 52 in
    if 0 <=? e then Finite (inject_Z (round_half_even x (y * 2 ^ e) * 2 ^ e))
    else Finite (round_half_even (x * 2 ^ (- e)) y # Z.to_pos (2 ^ (- e))).

Definition double_gt (x : double) (q : Q) : bool :=
  match x with
  | NaN => false
  | PInf => true
  | Finite r => negb (Qle_bool r q)
  end.

(** ** hash64.c *)

Record Entry : Type := { key : Z; value : Z }.

Record HashTable : Type := {
  buckets : list (list Entry);
  size : Z;
  count : Z
}.

(** [static inline unsigned int hash(affinity_key_t key, size_t size)] *)
Definition hash (key : Z) (size : Z) : res Z :=
  let h := wrap64 key in
  let h := Z.lxor h (Z.shiftr h 33) in
  let h := wrap64 (h * 0xff51afd7ed558ccd) in
  let h := Z.lxor h (Z.shiftr h 33) in
  let h := wrap64 (h * 0xc4ceb9fe1a85ec53) in
  let h := Z.lxor h (Z.shiftr h 33) in
  if size =? 0 then Undef else Ret (wrap32 (h mod size)).

(** [bs[index]] as an rvalue. *)
Definition read_bucket (bs : list (list Entry)) (index : Z) : res (list Entry) :=
  match bs !! Z.to_nat index with
  | Some c => Ret c
  | None => Undef
  end.

(** [HashTable *ht_create(size_t size)] *)
Definition ht_create (malloc_ok calloc_ok : bool) (size : Z) : option HashTable :=
  if malloc_ok then
    if calloc calloc_ok size sizeof_Entry_ptr then
      Some {| buckets := replicate (Z.to_nat size) []; size := size; count := 0 |}
    else None
  else None.

(** The inner [while] of [ht_resize]: every node of the chain [current] is
    relinked at the head of its bucket in the new array. *)
Fixpoint rehash_chain (new_size : Z) (current : list Entry) (ht : HashTable)
  : res HashTable :=
  match current with
  | [] => Ret ht
  | e :: next =>
      do new_index <- hash (key e) new_size;
      do head <- read_bucket (buckets ht) new_index;
      rehash_chain new_size next
        {| buckets := <[Z.to_nat new_index := e :: head]> (buckets ht);
           size := size ht;
           count := wrap64 (count ht + 1) |}
  end.

(** The outer [for (i = 0; i < old_size; i++)] of [ht_resize], with [n]
    iterations left. *)
Fixpoint rehash_buckets (old_buckets : list (list Entry)) (i : nat) (n : nat)
    (new_size : Z) (ht : HashTable) : res HashTable :=
  match n with
  | O => Ret ht
  | S n' =>
      do current <- read_bucket old_buckets (Z.of_nat i);
      do ht' <- rehash_chain new_size current ht;
      rehash_buckets old_buckets (S i) n' new_size ht'
  end.

(** [static void ht_resize(HashTable *ht, size_t new_size)] *)
Definition ht_resize (calloc_ok : bool) (ht : HashTable) (new_size : Z)
  : res HashTable :=
  let old_buckets := buckets ht in
  let old_size := size ht in
  if calloc calloc_ok new_size sizeof_Entry_ptr then
    rehash_buckets old_buckets 0 (Z.to_nat old_size) new_size
      {| buckets := replicate (Z.to_nat new_size) [];
         size := new_size;
         count := 0 |}
  else Ret ht.

(** [double ht_load_factor(HashTable *ht)] *)
Definition ht_load_factor (ht : HashTable) : double :=
  double_div (double_of_size_t (count ht)) (double_of_size_t (size ht)).

(** The update loop of [ht_put]: the first node holding [k] gets [v]. *)
Fixpoint chain_update (k v : Z) (current : list Entry) : option (list Entry) :=
  match current with
  | [] => None
  | e :: next =>
      if key e =? k then Some ({| key := key e; value := v |} :: next)
      else cons e <$> chain_update k v next
  end.

(** The insertion proper of [ht_put], from [index = hash(key, ht->size)]
    to the end of the function. *)
Definition put_entry (malloc_ok : bool) (ht : HashTable) (k v : Z)
  : res HashTable :=
  do index <- hash k (size ht);
  do current <- read_bucket (buckets ht) index;
  match chain_update k v current with
  | Some current' =>
      Ret {| buckets := <[Z.to_nat index := current']> (buckets ht);
             size := size ht;
             count := count ht |}
  | None =>
      if malloc_ok then
        Ret {| buckets :=
                 <[Z.to_nat index := {| key := k; value := v |} :: current]>
                   (buckets ht);
               size := size ht;
               count := wrap64 (count ht + 1) |}
      else Ret ht
  end.

(** [void ht_put(HashTable *ht, affinity_key_t key, affinity_value_t value)]:
    the load-factor test and its resize, then the insertion proper. *)
Definition ht_put (calloc_ok malloc_ok : bool) (ht : HashTable) (k v : Z)
  : res HashTable :=
  do ht <- (if double_gt (ht_load_factor ht) (3 # 4)
            then ht_resize calloc_ok ht (wrap64 (size ht * 2))
            else Ret ht);
  put_entry malloc_ok ht k v.

(** The search loop shared by [ht_get] and [ht_get_value]. *)
Fixpoint chain_find (k : Z) (current : list Entry) : option Z :=
  match current with
  | [] => None
  | e :: next => if key e =? k then Some (value e) else chain_find k next
  end.

(** [bool ht_get(HashTable *ht, affinity_key_t key, affinity_value_t *out_value)]

    [out_value] is [None] for a NULL pointer and [Some c] for a pointer to
    a cell holding [c]; the result pairs the returned flag with the cell
    after the call. *)
Definition ht_get (ht : HashTable) (k : Z) (out_value : option Z)
  : res (bool * option Z) :=
  do index <- hash k (size ht);
  do current <- read_bucket (buckets ht) index;
  match chain_find k current with
  | Some v => Ret (true, (fun _ => v) <$> out_value)
  | None => Ret (false, out_value)
  end.

(** [affinity_value_t ht_get_value(HashTable *ht, affinity_key_t key)] *)
Definition ht_get_value (ht : HashTable) (k : Z) : res Z :=
  do index <- hash k (size ht);
  do current <- read_bucket (buckets ht) index;
  match chain_find k current with
  | Some v => Ret v
  | None => Ret (wrap32 (-1))
  end.

(** [bool ht_contains(HashTable *ht, affinity_key_t key)] *)
Definition ht_contains (ht : HashTable) (k : Z) : res bool :=
  do r <- ht_get ht k None;
  Ret (fst r).

(** [size_t ht_size(HashTable *ht)] *)
Definition ht_size (ht : HashTable) : Z := count ht.

(** The unlink loop of [ht_remove]: the first node holding [k] leaves the
    chain. *)
Fixpoint chain_unlink (k : Z) (current : list Entry) : option (list Entry) :=
  match current with
  | [] => None
  | e :: next =>
      if key e =? k then Some next
      else cons e <$> chain_unlink k next
  end.

(** [bool ht_remove(HashTable *ht, affinity_key_t key)] *)
Definition ht_remove (ht : HashTable) (k : Z) : res (bool * HashTable) :=
  do index <- hash k (size ht);
  do current <- read_bucket (buckets ht) index;
  match chain_unlink k current with
  | Some current' =>
      Ret (true,
           {| buckets := <[Z.to_nat index := current']> (buckets ht);
              size := size ht;
              count := wrap64 (count ht - 1) |})
  | None => Ret (false, ht)
  end.

(** The [for] loop of [ht_clear], with [n] iterations left. *)
Fixpoint clear_buckets (bs : list (list Entry)) (i : nat) (n : nat)
  : res (list (list Entry)) :=
  match n with
  | O => Ret bs
  | S n' =>
      do _current <- read_bucket bs (Z.of_nat i);
      clear_buckets (<[i := []]> bs) (S i) n'
  end.

(** [void ht_clear(HashTable *ht)] *)
Definition ht_clear (ht : option HashTable) : res (option HashTable) :=
  match ht with
  | None => Ret None
  | Some t =>
      do bs <- clear_buckets (buckets t) 0 (Z.to_nat (size t));
      Ret (Some {| buckets := bs; size := size t; count := 0 |})
  end.

(** ** affinity.c *)

Module Affinity.

Definition INIT_BULK_SIZE : Z := 20480.

(** [affinity_value_t query_partition(affinity_key_t key)], the global
    [partition_map] being an argument. *)
Definition query_partition (partition_map : option HashTable) (k : Z) : res Z :=
  let value := wrap32 (-1) in
  match partition_map with
  | None => Ret (wrap32 (-1))
  | Some ht =>
      do r <- ht_get ht k (Some value);
      if fst r then Ret (default value (snd r)) else Ret (wrap32 (-1))
  end.

End Affinity.

(** ** Runs of the table *)

Record put_call : Type := {
  resize_alloc : bool;
  node_alloc : bool;
  put_key : Z;
  put_value : Z
}.

Fixpoint put_all (calls : list put_call) (ht : HashTable) : res HashTable :=
  match calls with
  | [] => Ret ht
  | c :: rest =>
      do ht' <- ht_put (resize_alloc c) (node_alloc c) ht (put_key c) (put_value c);
      put_all rest ht'
  end.


(** ** Contents, well-formedness and reachable states *)

(** The nodes of the table, bucket after bucket. *)
Definition entries (ht : HashTable) : list Entry := mjoin (buckets ht).

Definition entry_pair (e : Entry) : Z * Z := (key e, value e).

(** The finite map a table stands for. *)
Definition contents (ht : HashTable) : gmap Z Z :=
  list_to_map (entry_pair <$> entries ht).

(** What [ht_get] answers for the looked-up binding [o]. *)
Definition answer (o : option Z) (out_value : option Z) : bool * option Z :=
  match o with
  | Some v => (true, (fun _ => v) <$> out_value)
  | None => (false, out_value)
  end.

Record wf (ht : HashTable) : Prop := {
  wf_length : Z.of_nat (length (buckets ht)) = size ht;
  wf_fits : size ht * sizeof_Entry_ptr < 2 ^ 64;
  wf_count : count ht = wrap64 (Z.of_nat (length (entries ht)));
  wf_home : forall (i : nat) (c : list Entry) (e : Entry),
      buckets ht !! i = Some c -> e ∈ c ->
      hash (key e) (size ht) = Ret (Z.of_nat i);
  wf_nodup : NoDup (key <$> entries ht)
}.

(** The states a client can build: a table obtained from [ht_create] for a
    [size_t] argument, then any defined [ht_put], [ht_remove], [ht_clear],
    whatever the allocator answers. *)
Inductive reachable : HashTable -> Prop :=
| reachable_create (malloc_ok calloc_ok : bool) (sz : Z) (ht : HashTable) :
    0 <= sz < 2 ^ 64 ->
    ht_create malloc_ok calloc_ok sz = Some ht ->
    reachable ht
| reachable_put (calloc_ok malloc_ok : bool) (ht ht' : HashTable) (k v : Z) :
    reachable ht ->
    ht_put calloc_ok malloc_ok ht k v = Ret ht' ->
    reachable ht'
| reachable_remove (ht ht' : HashTable) (k : Z) (b : bool) :
    reachable ht ->
    ht_remove ht k = Ret (b, ht') ->
    reachable ht'
| reachable_clear (ht ht' : HashTable) :
    reachable ht ->
    ht_clear (Some ht) = Ret (Some ht') ->
    reachable ht'.

(** ** A small run, used to exercise the statements

    Four buckets, then the keys 0, 1, 2, 3 in turn; they hash to the
    buckets 0, 0, 3, 2. *)

Definition call (k v : Z) : put_call :=
  {| resize_alloc := true; node_alloc := true; put_key := k; put_value := v |}.

Definition table0 : HashTable :=
  {| buckets := [[]; []; []; []]; size := 4; count := 0 |}.

Definition table3 : HashTable :=
  {| buckets := [[{| key := 1; value := 11 |}; {| key := 0; value := 10 |}];
                 []; []; [{| key := 2; value := 12 |}]];
     size := 4; count := 3 |}.

Definition table4 : HashTable :=
  {| buckets := [[{| key := 1; value := 11 |}; {| key := 0; value := 10 |}];
                 []; [{| key := 3; value := 13 |}]; [{| key := 2; value := 12 |}]];
     size := 4; count := 4 |}.

(** ** hash64.c, the rest of the file *)

(** The value of [h] when [hash] reaches its [return]: the mixing rounds
    of lines 29 to 34, before the reduction modulo [size]. *)
Definition hash_mix (key : Z) : Z :=
  let h := wrap64 key in
  let h := Z.lxor h (Z.shiftr h 33) in
  let h := wrap64 (h * 0xff51afd7ed558ccd) in
  let h := Z.lxor h (Z.shiftr h 33) in
  let h := wrap64 (h * 0xc4ceb9fe1a85ec53) in
  Z.lxor h (Z.shiftr h 33).

(** The [for] loop of [ht_destroy], with [n] iterations left: every chain
    is read and its nodes are freed. *)
Fixpoint destroy_buckets (bs : list (list Entry)) (i : nat) (n : nat)
  : res unit :=
  match n with
  | O => Ret tt
  | S n' =>
      do _current <- read_bucket bs (Z.of_nat i);
      destroy_buckets bs (S i) n'
  end.

(** [void ht_destroy(HashTable *ht)] *)
Definition ht_destroy (ht : option HashTable) : res unit :=
  match ht with
  | None => Ret tt
  | Some t => destroy_buckets (buckets t) 0 (Z.to_nat (size t))
  end.

(** A client's calls on a table, with the allocator's answers, and their
    execution in sequence. *)
Inductive op : Type :=
| Put (calloc_ok malloc_ok : bool) (k v : Z)
| Remove (k : Z)
| Clear.

Fixpoint run_ops (ops : list op) (ht : HashTable) : res HashTable :=
  match ops with
  | [] => Ret ht
  | Put c m k v :: rest => do ht' <- ht_put c m ht k v; run_ops rest ht'
  | Remove k :: rest => do r <- ht_remove ht k; run_ops rest (snd r)
  | Clear :: rest =>
      do r <- ht_clear (Some ht);
      match r with
      | Some ht' => run_ops rest ht'
      | None => Undef
      end
  end.

(** ** affinity.c, the rest of the file

    The global [partition_map] is an argument and a result of the
    functions that use it.  The messages on stdout and stderr are left
    out, and with them [line_count], which is only printed. *)

(** What a function of affinity.c ends with: a return, with the returned
    flag and [partition_map] as it then is, or [exit(status)]. *)
Inductive outcome : Type :=
| Return (result : bool) (partition_map : option HashTable)
| Exit (status : Z).

(** One record of the partition file as [fscanf] delivers it, two [int]s,
    with the allocator's answers during the [ht_put] of that record. *)
Record map_line : Type := {
  line_key : Z;
  line_value : Z;
  line_calloc : bool;
  line_malloc : bool
}.

(** The [while (fscanf(...) == 2)] loop of [load_partition_map_disk] over
    the records that [fscanf] reads.  The [int] value is converted to
    [affinity_value_t] for [ht_put], and to [unsigned int] for the
    comparison with the result of [ht_get_value]. *)
Fixpoint load_lines (lines : list map_line) (ht : HashTable) : res outcome :=
  match lines with
  | [] => Ret (Return true (Some ht))
  | l :: rest =>
      do ht' <- ht_put (line_calloc l) (line_malloc l) ht
                  (line_key l) (wrap32 (line_value l));
      do stored <- ht_get_value ht' (line_key l);
      if wrap32 (line_value l) =? stored then load_lines rest ht'
      else Ret (Exit (-1))
  end.

(** [bool load_partition_map_disk(const char *filepath)]: [file] is [None]
    when [fopen] fails, and otherwise holds the records of the file. *)
Definition load_partition_map_disk (file : option (list map_line))
    (partition_map : option HashTable) : res outcome :=
  match file with
  | None => Ret (Return false partition_map)
  | Some lines =>
      match partition_map with
      | None => Ret (Return false None)
      | Some ht => load_lines lines ht
      end
  end.

(** [bool init_partition_map()] *)
Definition init_partition_map (malloc_ok calloc_ok : bool)
    (file : option (list map_line)) (partition_map : option HashTable)
  : res outcome :=
  match partition_map with
  | Some _ => Ret (Return true partition_map)
  | None =>
      match ht_create malloc_ok calloc_ok Affinity.INIT_BULK_SIZE with
      | None => Ret (Return false None)
      | Some ht => load_partition_map_disk file (Some ht)
      end
  end.

(** [void cleanup_partition_map(void)], returning [partition_map]. *)
Definition cleanup_partition_map (partition_map : option HashTable)
  : res (option HashTable) :=
  match partition_map with
  | Some ht => do _u <- ht_destroy (Some ht); Ret None
  | None => Ret None
  end.

(** [affinity_value_t get_affinity_value(Relation relation, HeapTuple tup)]:
    [isnull] and [colValue] are what [heap_getattr] yields for the tuple,
    [colValue] read as an [int64]; [garbage] is the content of the
    uninitialised local [value].  [partition_map] is dereferenced by
    [ht_get] without a test. *)
Definition get_affinity_value (partition_map : option HashTable)
    (isnull : bool) (colValue : Z) (garbage : Z) : res Z :=
  if isnull then Ret (wrap32 (-1))
  else
    match partition_map with
    | None => Undef
    | Some ht =>
        do r <- ht_get ht colValue (Some garbage);
        if fst r then Ret (default garbage (snd r)) else Ret 0
    end.

(** ** gen_txt.c

    [rand] gives the value of each call of [rand()], by call number. *)

(** The three assignments that swap [array[i]] and [array[j]]. *)
Definition swap_cells (array : list Z) (i j : Z) : res (list Z) :=
  if (i <? 0) || (j <? 0) then Undef
  else
    match array !! Z.to_nat i, array !! Z.to_nat j with
    | Some temp, Some aj =>
        Ret (<[Z.to_nat j := temp]> (<[Z.to_nat i := aj]> array))
    | _, _ => Undef
    end.

(** The loop of [shuffle] from [i] down to 1, [call] calls of [rand()]
    having been made. *)
Fixpoint shuffle_from (i : nat) (call : nat) (rand : nat -> Z)
    (array : list Z) : res (list Z) :=
  match i with
  | O => Ret array
  | S i' =>
      let j := Z.rem (rand call) (Z.of_nat i + 1) in
      do array' <- swap_cells array (Z.of_nat i) j;
      shuffle_from i' (S call) rand array'
  end.

(** [void shuffle(int *array, int n)] *)
Definition shuffle (rand : nat -> Z) (array : list Z) (n : Z)
  : res (list Z) :=
  if n =? - 2 ^ 31 then Undef
  else shuffle_from (Z.to_nat (n - 1)) 0 rand array.

(** The loop of [main] that prints one record per number. *)
Fixpoint write_lines (numbers : list Z) (call : nat) (rand : nat -> Z)
  : list (Z * Z) :=
  match numbers with
  | [] => []
  | x :: rest => (x, Z.rem (rand call) 4) :: write_lines rest (S call) rand
  end.

(** [main] for a count [n] of numbers: the exit status and the records
    written to the file, if it was opened. *)
Definition generate (n : Z) (malloc_ok fopen_ok : bool) (rand : nat -> Z)
  : res (Z * option (list (Z * Z))) :=
  if malloc_ok then
    let numbers := seqZ 1 n in
    do numbers <- shuffle rand numbers n;
    if fopen_ok then
      Ret (0, Some (write_lines numbers (Z.to_nat (n - 1)) rand))
    else Ret (1, None)
  else Ret (1, None).

(** [int main()] of gen_txt.c, where [n] is 10000. *)
Definition gen_main (malloc_ok fopen_ok : bool) (rand : nat -> Z)
  : res (Z * option (list (Z * Z))) :=
  generate 10000 malloc_ok fopen_ok rand.

(** ** A reference for the load-factor test

    The test of [ht_put], [ht_load_factor(ht) > 0.75], computed with the
    Standard Library's specification of IEEE 754 binary64: the two
    conversions, the division and the comparison with 0.75. *)

Definition ieee_of_size_t (n : Z) : spec_float :=
  binary_normalize 53 1024 n 0 false.

Definition ieee_load_test (count size : Z) : bool :=
  SFltb (S754_finite false 6755399441055744 (-53))
    (SFdiv 53 1024 (ieee_of_size_t count) (ieee_of_size_t size)).

(** * Proofs *)

(** Case analysis on the condition of the goal's conditional. *)
Ltac goal_if :=
  match goal with |- context [if ?b then _ else _] => destruct b end.

(** ** The monad and machine arithmetic *)

Lemma bind_Ret {A B : Type} (a : A) (f : A -> res B) : bind (Ret a) f = f a.
Proof. reflexivity. Qed.

Lemma bind_inv {A B : Type} (m : res A) (f : A -> res B) (b : B) :
  bind m f = Ret b -> exists a, m = Ret a /\ f a = Ret b.
Proof. destruct m as [a|]; simpl; [eauto | discriminate]. Qed.

Lemma wrap64_range z : 0 <= wrap64 z < 2 ^ 64.
Proof. unfold wrap64. apply Z.mod_pos_bound. lia. Qed.

Lemma wrap64_small z : 0 <= z < 2 ^ 64 -> wrap64 z = z.
Proof. unfold wrap64. apply Z.mod_small. Qed.

Lemma wrap64_succ z : wrap64 (wrap64 z + 1) = wrap64 (z + 1).
Proof. unfold wrap64. apply Zplus_mod_idemp_l. Qed.

Lemma wrap64_pred z : wrap64 (wrap64 z - 1) = wrap64 (z - 1).
Proof. unfold wrap64. apply Zminus_mod_idemp_l. Qed.

(** ** The hash function *)

Lemma hash_zero k : hash k 0 = Undef.
Proof. reflexivity. Qed.

Lemma hash_range k sz :
  0 < sz -> exists i, hash k sz = Ret i /\ 0 <= i < sz.
Proof.
  intros Hsz. unfold hash.
  destruct (sz =? 0) eqn:E; [lia|].
  eexists; split; [reflexivity|].
  unfold wrap32.
  match goal with |- context [?h mod sz] => set (r := h mod sz) end.
  assert (0 <= r < sz) by (apply Z.mod_pos_bound; lia).
  assert (0 <= r mod 2 ^ 32 < 2 ^ 32) by (apply Z.mod_pos_bound; lia).
  assert (r mod 2 ^ 32 <= r) by (apply Z.mod_le; lia).
  lia.
Qed.

Lemma hash_defined_pos k sz i : 0 <= sz -> hash k sz = Ret i -> 0 < sz.
Proof.
  intros Hsz H. destruct (Z.eq_dec sz 0) as [->|]; [|lia].
  rewrite hash_zero in H. discriminate.
Qed.

Global Arguments hash : simpl never.

(** ** The load-factor test *)

Lemma round_half_even_bounds n d :
  0 < d -> n / d <= round_half_even n d <= n / d + 1.
Proof.
  intros Hd. unfold round_half_even.
  destruct (2 * (n mod d) <? d); [lia|].
  destruct (d <? 2 * (n mod d)); [lia|].
  destruct (Z.even (n / d)); lia.
Qed.

Lemma round_half_even_mono n n' d :
  0 < d -> n <= n' -> round_half_even n d <= round_half_even n' d.
Proof.
  intros Hd Hn.
  pose proof (Z.div_le_mono n n' d Hd Hn) as Hf.
  destruct (Z.eq_dec (n / d) (n' / d)) as [Heq|Hne].
  - pose proof (Z.div_mod n d ltac:(lia)) as E1.
    pose proof (Z.div_mod n' d ltac:(lia)) as E2.
    assert (n mod d <= n' mod d) as Hr by (rewrite Heq in E1; lia).
    unfold round_half_even. rewrite Heq.
    destruct (2 * (n mod d) <? d) eqn:A, (2 * (n' mod d) <? d) eqn:A';
      destruct (d <? 2 * (n mod d)) eqn:B, (d <? 2 * (n' mod d)) eqn:B';
      destruct (Z.even (n' / d)); lia.
  - pose proof (round_half_even_bounds n d Hd).
    pose proof (round_half_even_bounds n' d Hd). lia.
Qed.

Lemma round_half_even_above n d K :
  0 < d -> Z.even K = true ->
  K < round_half_even n d <-> (2 * K + 1) * d < 2 * n.
Proof.
  intros Hd HK.
  pose proof (Z.div_mod n d ltac:(lia)) as E.
  pose proof (Z.mod_pos_bound n d Hd) as Hr.
  pose proof (round_half_even_bounds n d Hd) as Hb.
  destruct (Z_lt_le_dec K (n / d)) as [Hgt|Hle].
  - split; [|lia]. intros _. nia.
  - destruct (Z.eq_dec (n / d) K) as [Heq|Hne].
    + unfold round_half_even. rewrite Heq, HK. rewrite Heq in E.
      destruct (2 * (n mod d) <? d) eqn:A; [nia|].
      destruct (d <? 2 * (n mod d)) eqn:B; nia.
    + split; [lia|]. intros H. exfalso. nia.
Qed.

Lemma double_of_size_t_small n : n < 2 ^ 53 -> double_of_size_t n = n.
Proof. intros H. unfold double_of_size_t. by replace (n <? 2 ^ 53) with true by lia. Qed.

(** For [2^53 <= n], with [p = 2^(log2 n - 52)]: the binade of [n]. *)
Lemma binade n :
  2 ^ 53 <= n ->
  let p := 2 ^ (Z.log2 n - 52) in
  1 <= Z.log2 n - 52 /\ 2 <= p /\ 2 ^ 52 * p <= n < 2 ^ 53 * p.
Proof.
  intros Hn p.
  assert (53 <= Z.log2 n) as Hl.
  { change 53 with (Z.log2 (2 ^ 53)). apply Z.log2_le_mono. lia. }
  pose proof (Z.log2_spec n ltac:(lia)) as [Hlo Hhi].
  split; [lia|].
  assert (2 ^ Z.log2 n = 2 ^ 52 * p) as E1.
  { unfold p. rewrite <- Z.pow_add_r by lia. f_equal. lia. }
  assert (2 ^ Z.succ (Z.log2 n) = 2 ^ 53 * p) as E2.
  { unfold p. rewrite <- Z.pow_add_r by lia. f_equal. lia. }
  split; [|lia].
  unfold p. change 2 with (2 ^ 1) at 1. apply Z.pow_le_mono_r; lia.
Qed.

Lemma double_of_size_t_big n :
  2 ^ 53 <= n ->
  let p := 2 ^ (Z.log2 n - 52) in
  double_of_size_t n = round_half_even n p * p /\
  2 ^ 52 <= round_half_even n p <= 2 ^ 53.
Proof.
  intros Hn p. destruct (binade n Hn) as (He & Hp & Hlo & Hhi). fold p in Hp, Hlo, Hhi.
  split.
  { unfold double_of_size_t. by replace (n <? 2 ^ 53) with false by lia. }
  pose proof (round_half_even_bounds n p ltac:(lia)) as Hb.
  assert (2 ^ 52 <= n / p) by (apply Z.div_le_lower_bound; lia).
  assert (n / p < 2 ^ 53) by (apply Z.div_lt_upper_bound; lia).
  lia.
Qed.

Lemma double_of_size_t_mono n n' :
  0 <= n <= n' -> double_of_size_t n <= double_of_size_t n'.
Proof.
  intros Hn.
  destruct (Z_lt_le_dec n' (2 ^ 53)) as [Hs'|Hb'].
  { rewrite !double_of_size_t_small by lia. lia. }
  destruct (double_of_size_t_big n' Hb') as [-> Hm'].
  destruct (binade n' Hb') as (He' & Hp' & Hlo' & Hhi').
  destruct (Z_lt_le_dec n (2 ^ 53)) as [Hs|Hb].
  { rewrite double_of_size_t_small by lia. nia. }
  destruct (double_of_size_t_big n Hb) as [-> Hm].
  destruct (binade n Hb) as (He & Hp & Hlo & Hhi).
  pose proof (Z.log2_le_mono n n' ltac:(lia)) as Hl.
  destruct (Z.eq_dec (Z.log2 n) (Z.log2 n')) as [Heq|Hne].
  - rewrite Heq. apply Z.mul_le_mono_nonneg_r; [lia|].
    apply round_half_even_mono; lia.
  - assert (2 * 2 ^ (Z.log2 n - 52) <= 2 ^ (Z.log2 n' - 52)) as Hpp.
    { change 2 with (2 ^ 1) at 1. rewrite <- Z.pow_add_r by lia.
      apply Z.pow_le_mono_r; lia. }
    nia.
Qed.

Lemma double_of_size_t_pos n : 0 < n -> 0 < double_of_size_t n.
Proof.
  intros Hn. destruct (Z_lt_le_dec n (2 ^ 53)) as [Hs|Hb].
  - rewrite double_of_size_t_small; lia.
  - destruct (double_of_size_t_big n Hb) as [-> Hm].
    destruct (binade n Hb) as (_ & Hp & _). nia.
Qed.

Lemma double_of_size_t_ge n : 2 ^ 53 <= n -> 2 ^ 53 <= double_of_size_t n.
Proof.
  intros Hb. destruct (double_of_size_t_big n Hb) as [-> Hm].
  destruct (binade n Hb) as (_ & Hp & _). nia.
Qed.

(** The rounded quotient of two positive integers is above 0.75 exactly
    when the exact quotient is above the midpoint of 0.75 and the next
    double, [0.75 + 2^-54]. *)
Lemma double_div_above x y :
  0 <= x -> 0 < y ->
  double_gt (double_div x y) (3 # 4) = true <->
  (3 * 2 ^ 52 + 1) * y < 2 ^ 54 * x.
Proof.
  intros Hx Hy. unfold double_div.
  replace (y =? 0) with false by lia.
  destruct (x =? 0) eqn:Ex.
  { apply Z.eqb_eq in Ex. subst x. simpl. split; [discriminate|lia]. }
  apply Z.eqb_neq in Ex. unfold quotient_exponent.
  destruct (y <=? x) eqn:Eyx.
  - (* the quotient is at least 1 *)
    apply Z.leb_le in Eyx.
    assert (1 <= x / y) as Hq by (apply Z.div_le_lower_bound; lia).
    pose proof (Z.log2_spec (x / y) ltac:(lia)) as [Hlo _].
    pose proof (Z.log2_nonneg (x / y)) as Hl.
    pose proof (Z.mul_div_le x y Hy) as Hmd.
    set (E := Z.log2 (x / y)) in *.
    split; [lia|]. intros _.
    destruct (0 <=? E - 52) eqn:Ee.
    + apply Z.leb_le in Ee.
      assert (0 < 2 ^ (E - 52)) as Hp by (apply Z.pow_pos_nonneg; lia).
      assert (2 ^ (E - 52) <= 2 ^ E) as Hpp by (apply Z.pow_le_mono_r; lia).
      pose proof (round_half_even_bounds x (y * 2 ^ (E - 52)) ltac:(nia)) as Hb.
      assert (1 <= x / (y * 2 ^ (E - 52))) by (apply Z.div_le_lower_bound; nia).
      unfold double_gt, Qle_bool. simpl.
      apply negb_true_iff, Z.leb_gt. nia.
    + apply Z.leb_gt in Ee.
      assert (0 < 2 ^ (- (E - 52))) as Hp by (apply Z.pow_pos_nonneg; lia).
      pose proof (round_half_even_bounds (x * 2 ^ (- (E - 52))) y Hy) as Hb.
      assert (2 ^ (- (E - 52)) <= x * 2 ^ (- (E - 52)) / y)
        by (apply Z.div_le_lower_bound; nia).
      unfold double_gt, Qle_bool. simpl. rewrite Z2Pos.id by lia.
      apply negb_true_iff, Z.leb_gt. nia.
  - (* the quotient is below 1 *)
    apply Z.leb_gt in Eyx.
    set (C := (y + x - 1) / x).
    assert (2 <= C) as HC by (apply Z.div_le_lower_bound; lia).
    pose proof (Z.log2_up_spec C ltac:(lia)) as [Hlo Hhi].
    assert (1 <= Z.log2_up C) as Hk.
    { change 1 with (Z.log2_up 2). apply Z.log2_up_le_mono. lia. }
    pose proof (Z.mul_div_le (y + x - 1) x ltac:(lia)) as Hmd. fold C in Hmd.
    set (k := Z.log2_up C) in *.
    replace (0 <=? - k - 52) with false by lia.
    replace (- (- k - 52)) with (k + 52) by lia.
    assert (0 < 2 ^ (k + 52)) as Hp by (apply Z.pow_pos_nonneg; lia).
    unfold double_gt, Qle_bool. simpl. rewrite Z2Pos.id by lia.
    rewrite negb_true_iff, Z.leb_gt.
    destruct (Z.eq_dec k 1) as [->|Hk1].
    + change (2 ^ (1 + 52)) with (2 ^ 53).
      pose proof (round_half_even_above (x * 2 ^ 53) y (3 * 2 ^ 51) Hy eq_refl) as H.
      lia.
    + assert (2 ^ (k + 52) = 2 ^ 53 * 2 ^ Z.pred k) as E1.
      { rewrite <- Z.pow_add_r by lia. f_equal. lia. }
      assert (2 <= 2 ^ Z.pred k) as Hpk.
      { change 2 with (2 ^ 1) at 1. apply Z.pow_le_mono_r; lia. }
      assert (x * 2 ^ Z.pred k < y) as Hxy by nia.
      pose proof (round_half_even_bounds (x * 2 ^ (k + 52)) y Hy) as Hb.
      assert (x * 2 ^ (k + 52) / y < 2 ^ 53)
        by (apply Z.div_lt_upper_bound; nia).
      split; [nia|nia].
Qed.

Lemma load_test c s :
  0 <= c -> 0 < s < 2 ^ 52 ->
  double_gt (double_div (double_of_size_t c) (double_of_size_t s)) (3 # 4)
  = (3 * s <? 4 * c).
Proof.
  intros Hc Hs. rewrite (double_of_size_t_small s) by lia.
  pose proof (double_div_above (double_of_size_t c) s) as Habove.
  pose proof (double_of_size_t_mono 0 c ltac:(lia)) as Hc0.
  rewrite (double_of_size_t_small 0) in Hc0 by lia.
  specialize (Habove Hc0 ltac:(lia)).
  destruct (Z_lt_le_dec c (2 ^ 53)) as [Hsmall|Hbig].
  - rewrite (double_of_size_t_small c) in * by lia.
    destruct (double_gt _ _), (3 * s <? 4 * c) eqn:E; try reflexivity.
    + apply Z.ltb_ge in E. destruct Habove as [H _]. specialize (H eq_refl). lia.
    + apply Z.ltb_lt in E. destruct Habove as [_ H]. apply H. lia.
  - pose proof (double_of_size_t_ge c Hbig) as Hge.
    replace (3 * s <? 4 * c) with true by lia.
    apply Habove. lia.
Qed.

Lemma load_test_mono c c' s :
  0 <= c <= c' -> 0 < s ->
  double_gt (double_div (double_of_size_t c) (double_of_size_t s)) (3 # 4) = true ->
  double_gt (double_div (double_of_size_t c') (double_of_size_t s)) (3 # 4) = true.
Proof.
  intros Hc Hs.
  pose proof (double_of_size_t_pos s Hs) as Hy.
  pose proof (double_of_size_t_mono 0 c ltac:(lia)) as Hc0.
  rewrite (double_of_size_t_small 0) in Hc0 by lia.
  pose proof (double_of_size_t_mono c c' Hc) as Hm.
  rewrite !double_div_above by lia. lia.
Qed.

(** ** Chains *)

Lemma entry_pair_keys (l : list Entry) : (entry_pair <$> l).*1 = key <$> l.
Proof. by rewrite <- list_fmap_compose. Qed.

Lemma chain_find_map k (l : list Entry) :
  chain_find k l = (list_to_map (entry_pair <$> l) : gmap Z Z) !! k.
Proof.
  induction l as [|e l IH]; simpl.
  - by rewrite lookup_empty.
  - destruct (key e =? k) eqn:E.
    + apply Z.eqb_eq in E. subst k. by rewrite lookup_insert_eq.
    + apply Z.eqb_neq in E. by rewrite lookup_insert_ne.
Qed.

Lemma chain_find_None k (l : list Entry) :
  chain_find k l = None <-> k ∉ key <$> l.
Proof.
  rewrite chain_find_map, <- entry_pair_keys.
  symmetry. apply not_elem_of_list_to_map.
Qed.

Lemma chain_find_elem k v (l : list Entry) :
  chain_find k l = Some v -> {| key := k; value := v |} ∈ l.
Proof.
  induction l as [|e l IH]; simpl; [discriminate|].
  destruct (key e =? k) eqn:E.
  - apply Z.eqb_eq in E. intros [= <-]. subst k. destruct e. left.
  - intros H. right. auto.
Qed.

Lemma chain_update_None k v (l : list Entry) :
  chain_update k v l = None <-> chain_find k l = None.
Proof.
  induction l as [|e l IH]; simpl; [tauto|].
  destruct (key e =? k); [split; discriminate|].
  destruct (chain_update k v l); simpl.
  - split; [discriminate|]. intros H. apply IH in H. discriminate.
  - split; [|reflexivity]. intros _. by apply IH.
Qed.

Lemma chain_update_Some k v (l l' : list Entry) :
  chain_update k v l = Some l' ->
  key <$> l' = key <$> l /\
  (list_to_map (entry_pair <$> l') : gmap Z Z)
  = <[k := v]> (list_to_map (entry_pair <$> l)).
Proof.
  revert l'. induction l as [|e l IH]; simpl; intros l'; [discriminate|].
  destruct (key e =? k) eqn:E.
  - apply Z.eqb_eq in E. intros [= <-]. simpl. split; [reflexivity|].
    subst k. by rewrite insert_insert_eq.
  - apply Z.eqb_neq in E.
    destruct (chain_update k v l) as [l0|]; simpl; [|discriminate].
    intros [= <-]. destruct (IH l0 eq_refl) as [Hk Hm].
    rewrite !fmap_cons. split; [by rewrite Hk|].
    unfold entry_pair at 1 3. rewrite !list_to_map_cons, Hm.
    by rewrite insert_insert_ne.
Qed.

Lemma chain_unlink_None k (l : list Entry) :
  chain_unlink k l = None <-> chain_find k l = None.
Proof.
  induction l as [|e l IH]; simpl; [tauto|].
  destruct (key e =? k); [split; discriminate|].
  destruct (chain_unlink k l); simpl.
  - split; [discriminate|]. intros H. apply IH in H. discriminate.
  - split; [|reflexivity]. intros _. by apply IH.
Qed.

Lemma chain_unlink_Some k (l l' : list Entry) :
  chain_unlink k l = Some l' ->
  exists e, key e = k /\ l ≡ₚ e :: l'.
Proof.
  revert l'. induction l as [|e l IH]; simpl; intros l'; [discriminate|].
  destruct (key e =? k) eqn:E.
  - apply Z.eqb_eq in E. intros [= <-]. by exists e.
  - destruct (chain_unlink k l) as [l0|]; simpl; [|discriminate].
    intros [= <-]. destruct (IH l0 eq_refl) as (e' & He' & Hp).
    exists e'. split; [done|]. rewrite Hp. apply perm_swap.
Qed.

(** ** The bucket array *)

Lemma read_bucket_Ret (bs : list (list Entry)) i c :
  0 <= i -> read_bucket bs i = Ret c <-> bs !! Z.to_nat i = Some c.
Proof.
  intros _. unfold read_bucket.
  destruct (bs !! Z.to_nat i); split; intros H; congruence.
Qed.

Lemma read_bucket_in_range (bs : list (list Entry)) i :
  0 <= i < Z.of_nat (length bs) -> exists c, read_bucket bs i = Ret c /\ bs !! Z.to_nat i = Some c.
Proof.
  intros Hi. unfold read_bucket.
  destruct (lookup_lt_is_Some_2 bs (Z.to_nat i)) as [c Hc]; [lia|].
  rewrite Hc. eauto.
Qed.

(** Replacing one chain of the array: the other chains are a common
    remainder. *)
Lemma join_insert (bs : list (list Entry)) (i : nat) (c : list Entry) :
  bs !! i = Some c ->
  exists rest, mjoin bs ≡ₚ c ++ rest /\
               forall c', mjoin (<[i := c']> bs) ≡ₚ c' ++ rest.
Proof.
  intros Hi. exists (mjoin (take i bs) ++ mjoin (drop (S i) bs)). split.
  - rewrite <- (take_drop_middle bs i c Hi) at 1.
    rewrite join_app. simpl.
    rewrite Permutation_app_swap_app. reflexivity.
  - intros c'. rewrite insert_take_drop by (eapply lookup_lt_Some; eauto).
    rewrite join_app. simpl.
    rewrite Permutation_app_swap_app. reflexivity.
Qed.

Lemma entries_elem (ht : HashTable) (e : Entry) :
  e ∈ entries ht <-> exists i c, buckets ht !! i = Some c /\ e ∈ c.
Proof.
  unfold entries. rewrite list_elem_of_join. split.
  - intros (c & He & Hc). apply list_elem_of_lookup in Hc as [i Hi]. eauto.
  - intros (i & c & Hi & He). exists c. split; [done|].
    apply list_elem_of_lookup. eauto.
Qed.

(** ** Well-formed tables *)

Section well_formed.

Context (ht : HashTable) (Hwf : wf ht).

Lemma wf_size_nonneg : 0 <= size ht.
Proof. rewrite <- (wf_length ht Hwf). lia. Qed.

Lemma wf_nodup_pairs : NoDup (entry_pair <$> entries ht).*1.
Proof. rewrite entry_pair_keys. apply (wf_nodup ht Hwf). Qed.

Lemma wf_hash_bucket k i :
  hash k (size ht) = Ret i ->
  0 <= i /\ exists c, read_bucket (buckets ht) i = Ret c /\
                     buckets ht !! Z.to_nat i = Some c.
Proof.
  intros Hh.
  assert (0 < size ht) as Hpos by (eapply hash_defined_pos; eauto using wf_size_nonneg).
  destruct (hash_range k (size ht) Hpos) as (i' & Hi' & Hr).
  assert (i' = i) by congruence. subst i'.
  split; [lia|]. apply read_bucket_in_range.
  rewrite (wf_length ht Hwf). lia.
Qed.

(** The chain of a key's bucket holds the key's binding, if any. *)
Lemma wf_bucket_lookup k i c :
  hash k (size ht) = Ret i ->
  buckets ht !! Z.to_nat i = Some c ->
  chain_find k c = contents ht !! k.
Proof.
  intros Hh Hc. unfold contents.
  destruct (chain_find k c) as [v|] eqn:F; symmetry.
  - apply elem_of_list_to_map_1; [apply wf_nodup_pairs|].
    apply chain_find_elem in F.
    assert ({| key := k; value := v |} ∈ entries ht) as Hin
      by (apply entries_elem; eauto).
    by apply (list_elem_of_fmap_2 entry_pair) in Hin.
  - apply not_elem_of_list_to_map_1. rewrite entry_pair_keys.
    intros Hin. apply list_elem_of_fmap in Hin as (e & -> & He).
    apply entries_elem in He as (j & c' & Hj & He).
    pose proof (wf_home ht Hwf j c' e Hj He) as Hhome.
    assert (i = Z.of_nat j) by congruence. subst i.
    rewrite Nat2Z.id in Hc. assert (c' = c) by congruence. subst c'.
    apply chain_find_None in F. apply F.
    by apply list_elem_of_fmap_2.
Qed.

Lemma ht_get_contents k out :
  0 < size ht ->
  ht_get ht k out = Ret (answer (contents ht !! k) out).
Proof.
  intros Hpos. unfold ht_get.
  destruct (hash_range k (size ht) Hpos) as (i & Hi & _).
  destruct (wf_hash_bucket k i Hi) as (_ & c & Hr & Hc).
  rewrite Hi, bind_Ret, Hr, bind_Ret.
  rewrite (wf_bucket_lookup k i c Hi Hc).
  by destruct (contents ht !! k).
Qed.

Lemma ht_get_value_contents k :
  0 < size ht ->
  ht_get_value ht k = Ret (default (wrap32 (-1)) (contents ht !! k)).
Proof.
  intros Hpos. unfold ht_get_value.
  destruct (hash_range k (size ht) Hpos) as (i & Hi & _).
  destruct (wf_hash_bucket k i Hi) as (_ & c & Hr & Hc).
  rewrite Hi, bind_Ret, Hr, bind_Ret.
  rewrite (wf_bucket_lookup k i c Hi Hc).
  by destruct (contents ht !! k).
Qed.

Lemma wf_count_contents :
  count ht = wrap64 (Z.of_nat (base.size (contents ht))).
Proof.
  rewrite (wf_count ht Hwf). unfold contents.
  rewrite map_size_list_to_map by apply wf_nodup_pairs.
  by rewrite length_fmap.
Qed.

Lemma wf_entry_contents e :
  e ∈ entries ht -> contents ht !! key e = Some (value e).
Proof.
  intros He. apply elem_of_list_to_map_1; [apply wf_nodup_pairs|].
  by apply (list_elem_of_fmap_2 entry_pair) in He.
Qed.

Lemma wf_contents_entry k v :
  contents ht !! k = Some v -> {| key := k; value := v |} ∈ entries ht.
Proof.
  intros H. apply elem_of_list_to_map_2 in H.
  apply list_elem_of_fmap in H as (e & He & Hin).
  destruct e as [k' v']. unfold entry_pair in He. simpl in He.
  by injection He as -> ->.
Qed.

Lemma wf_entries_size : entries ht <> [] -> 0 < size ht.
Proof.
  intros Hne. destruct (entries ht) as [|e l] eqn:E; [done|].
  assert (e ∈ entries ht) as He by (rewrite E; left).
  apply entries_elem in He as (i & c & Hi & _).
  apply lookup_lt_Some in Hi. rewrite <- (wf_length ht Hwf). lia.
Qed.

(** Replacing the chain of bucket [i] by a chain of keys that hash to [i]
    keeps every node in its home bucket. *)
Lemma wf_home_insert (i : nat) (c' : list Entry) :
  (forall e, e ∈ c' -> hash (key e) (size ht) = Ret (Z.of_nat i)) ->
  forall (j : nat) (c : list Entry) (e : Entry),
    <[i := c']> (buckets ht) !! j = Some c -> e ∈ c ->
    hash (key e) (size ht) = Ret (Z.of_nat j).
Proof.
  intros Hc' j c e Hj He.
  apply list_lookup_insert_Some in Hj as [(-> & -> & _)|(_ & Hj)]; [auto|].
  eapply (wf_home ht Hwf); eauto.
Qed.

(** Linking a node with a fresh key at the head of its bucket. *)
Lemma wf_link e i c :
  hash (key e) (size ht) = Ret i ->
  buckets ht !! Z.to_nat i = Some c ->
  key e ∉ key <$> entries ht ->
  let ht' := {| buckets := <[Z.to_nat i := e :: c]> (buckets ht);
                size := size ht;
                count := wrap64 (count ht + 1) |} in
  wf ht' /\ entries ht' ≡ₚ e :: entries ht.
Proof.
  intros Hh Hc Hfresh ht'.
  destruct (wf_hash_bucket (key e) i Hh) as (Hi & _).
  destruct (join_insert (buckets ht) (Z.to_nat i) c Hc) as (rest & Hold & Hnew).
  assert (entries ht' ≡ₚ e :: entries ht) as Hperm.
  { unfold entries. simpl. rewrite Hnew, Hold. reflexivity. }
  split; [|exact Hperm]. constructor; simpl.
  - rewrite length_insert. apply (wf_length ht Hwf).
  - apply (wf_fits ht Hwf).
  - rewrite (wf_count ht Hwf), wrap64_succ. f_equal.
    rewrite Hperm. simpl length. lia.
  - apply wf_home_insert. intros e' [->|He']%elem_of_cons.
    + rewrite Hh. f_equal. lia.
    + rewrite Z2Nat.id by lia.
      pose proof (wf_home ht Hwf (Z.to_nat i) c e' Hc He') as H.
      by rewrite Z2Nat.id in H by lia.
  - rewrite Hperm. rewrite fmap_cons. apply NoDup_cons. split; [done|].
    apply (wf_nodup ht Hwf).
Qed.

End well_formed.

(** ** The insertion proper *)

Lemma put_entry_spec (ht : HashTable) (m : bool) (k v : Z) :
  wf ht -> 0 < size ht ->
  exists ht',
    put_entry m ht k v = Ret ht' /\ wf ht' /\ size ht' = size ht /\
    contents ht' =
      (if m || bool_decide (is_Some (contents ht !! k))
       then <[k := v]> (contents ht) else contents ht) /\
    count ht' =
      (if bool_decide (is_Some (contents ht !! k)) then count ht
       else if m then wrap64 (count ht + 1) else count ht).
Proof.
  intros Hwf Hpos. unfold put_entry.
  destruct (hash_range k (size ht) Hpos) as (i & Hi & Hr).
  destruct (wf_hash_bucket ht Hwf k i Hi) as (_ & c & Hrd & Hc).
  rewrite Hi, bind_Ret, Hrd, bind_Ret.
  pose proof (wf_bucket_lookup ht Hwf k i c Hi Hc) as Hfind.
  destruct (join_insert (buckets ht) (Z.to_nat i) c Hc) as (rest & Hold & Hnew).
  destruct (chain_update k v c) as [c'|] eqn:U.
  - (* the key is there: its node is updated in place *)
    destruct (chain_update_Some k v c c' U) as [Hkeys Hmap].
    assert (is_Some (contents ht !! k)) as Hsome.
    { rewrite <- Hfind. destruct (chain_find k c) eqn:F; [eauto|].
      apply chain_update_None with (v := v) in F. congruence. }
    rewrite bool_decide_true, orb_true_r by done.
    eexists. split; [reflexivity|].
    set (ht' := {| buckets := _; size := _; count := _ |}).
    assert (key <$> entries ht' ≡ₚ key <$> entries ht) as Hpk.
    { unfold entries. simpl. rewrite Hnew, Hold, !fmap_app, Hkeys. reflexivity. }
    assert (wf ht') as Hwf'.
    { constructor; simpl.
      - rewrite length_insert. apply (wf_length ht Hwf).
      - apply (wf_fits ht Hwf).
      - rewrite (wf_count ht Hwf). f_equal. f_equal.
        rewrite <- (length_fmap key (entries ht)), <- (length_fmap key (entries ht')).
        by rewrite Hpk.
      - apply wf_home_insert; [done|]. intros e He.
        assert (key e ∈ key <$> c) as Hin
          by (rewrite <- Hkeys; by apply list_elem_of_fmap_2).
        apply list_elem_of_fmap in Hin as (e0 & -> & He0).
        pose proof (wf_home ht Hwf _ c e0 Hc He0) as H.
        rewrite Z2Nat.id in * by lia. exact H.
      - rewrite Hpk. apply (wf_nodup ht Hwf). }
    split; [exact Hwf'|]. split; [reflexivity|]. split; [|reflexivity].
    unfold contents.
    rewrite (list_to_map_proper (entry_pair <$> entries ht')
               (entry_pair <$> (c' ++ rest))).
    2: { apply wf_nodup_pairs, Hwf'. }
    2: { apply fmap_Permutation. unfold entries. simpl. apply Hnew. }
    rewrite (list_to_map_proper (entry_pair <$> entries ht)
               (entry_pair <$> (c ++ rest))).
    2: { apply wf_nodup_pairs, Hwf. }
    2: { apply fmap_Permutation. apply Hold. }
    rewrite !fmap_app, !list_to_map_app, Hmap.
    by rewrite insert_union_l.
  - (* the key is absent: a new node is linked at the head *)
    assert (contents ht !! k = None) as Hnone.
    { rewrite <- Hfind. by apply (chain_update_None k v). }
    rewrite Hnone, bool_decide_false, orb_false_r by (intros [? ?]; done).
    destruct m.
    + assert (k ∉ key <$> entries ht) as Hfresh.
      { rewrite <- entry_pair_keys. by apply not_elem_of_list_to_map. }
      destruct (wf_link ht Hwf {| key := k; value := v |} i c Hi Hc Hfresh)
        as [Hwf' Hperm].
      eexists. split; [reflexivity|]. split; [exact Hwf'|].
      split; [reflexivity|]. split; [|reflexivity].
      unfold contents at 1.
      rewrite (list_to_map_proper _ (entry_pair <$> ({| key := k; value := v |} :: entries ht))).
      2: { apply wf_nodup_pairs, Hwf'. }
      2: { by apply fmap_Permutation. }
      reflexivity.
    + exists ht. done.
Qed.

(** ** Resize *)

Lemma join_replicate_nil (n : nat) : mjoin (replicate n ([] : list Entry)) = [].
Proof. induction n as [|n IH]; simpl; [reflexivity|exact IH]. Qed.

Lemma empty_table_wf (n : Z) :
  0 <= n -> n * sizeof_Entry_ptr < 2 ^ 64 ->
  wf {| buckets := replicate (Z.to_nat n) []; size := n; count := 0 |}.
Proof.
  intros Hn Hfit. constructor; unfold entries; simpl.
  - rewrite length_replicate. lia.
  - exact Hfit.
  - by rewrite join_replicate_nil.
  - intros i c e Hc He. apply lookup_replicate_1 in Hc as [-> _].
    by apply elem_of_nil in He.
  - rewrite join_replicate_nil. constructor.
Qed.

Lemma empty_table_contents (n : Z) b c :
  contents {| buckets := replicate (Z.to_nat n) []; size := b; count := c |} = ∅.
Proof. unfold contents, entries. simpl. by rewrite join_replicate_nil. Qed.

Lemma rehash_chain_app new_size (l1 l2 : list Entry) (ht : HashTable) :
  rehash_chain new_size (l1 ++ l2) ht
  = bind (rehash_chain new_size l1 ht) (rehash_chain new_size l2).
Proof.
  revert ht. induction l1 as [|e l1 IH]; intros ht; simpl; [reflexivity|].
  destruct (hash (key e) new_size) as [i|]; simpl; [|reflexivity].
  destruct (read_bucket (buckets ht) i) as [c|]; simpl; [|reflexivity].
  apply IH.
Qed.

(** The two nested loops visit the nodes of the old array in order. *)
Lemma rehash_buckets_chain (old : list (list Entry)) new_size (n i : nat)
    (ht : HashTable) :
  (i + n <= length old)%nat ->
  rehash_buckets old i n new_size ht
  = rehash_chain new_size (mjoin (take n (drop i old))) ht.
Proof.
  revert i ht. induction n as [|n IH]; intros i ht Hlen; simpl.
  - reflexivity.
  - destruct (lookup_lt_is_Some_2 old i) as [c Hc]; [lia|].
    unfold read_bucket at 1. rewrite Nat2Z.id, Hc, bind_Ret.
    rewrite (drop_S old c i Hc). simpl. rewrite rehash_chain_app.
    destruct (rehash_chain new_size c ht) as [ht'|]; simpl; [|reflexivity].
    apply IH. lia.
Qed.

Lemma rehash_chain_spec new_size (es : list Entry) (ht : HashTable) :
  wf ht -> size ht = new_size ->
  (es = [] \/ 0 < new_size) ->
  NoDup (key <$> es) ->
  (forall e, e ∈ es -> key e ∉ key <$> entries ht) ->
  exists ht',
    rehash_chain new_size es ht = Ret ht' /\ wf ht' /\ size ht' = new_size /\
    entries ht' ≡ₚ es ++ entries ht.
Proof.
  revert ht. induction es as [|e es IH]; intros ht Hwf Hsz Hpos Hnd Hfresh.
  - exists ht. simpl. done.
  - destruct Hpos as [|Hpos]; [done|]. simpl. subst new_size.
    destruct (hash_range (key e) (size ht) Hpos) as (i & Hi & Hr).
    destruct (wf_hash_bucket ht Hwf (key e) i Hi) as (_ & c & Hrd & Hc).
    rewrite Hi, bind_Ret, Hrd, bind_Ret.
    assert (key e ∉ key <$> entries ht) as He by (apply Hfresh; left).
    destruct (wf_link ht Hwf e i c Hi Hc He) as [Hwf1 Hperm1].
    rewrite fmap_cons in Hnd. apply NoDup_cons in Hnd as [Hne Hnd].
    edestruct (IH _ Hwf1) as (ht' & Hrun & Hwf' & Hsz' & Hperm'); 
      [reflexivity | by right | exact Hnd | | ].
    + intros e' He'. rewrite Hperm1, fmap_cons.
      intros [Heq|Hin]%elem_of_cons.
      * apply Hne. rewrite <- Heq. by apply list_elem_of_fmap_2.
      * apply (Hfresh e'); [by right|done].
    + exists ht'. split; [exact Hrun|]. split; [exact Hwf'|].
      split; [exact Hsz'|].
      rewrite Hperm', Hperm1. simpl.
      by rewrite Permutation_middle.
Qed.

Lemma ht_resize_spec (ok : bool) (ht : HashTable) (new_size : Z) :
  wf ht ->
  calloc ok new_size sizeof_Entry_ptr = true ->
  0 <= new_size -> (entries ht = [] \/ 0 < new_size) ->
  exists ht',
    ht_resize ok ht new_size = Ret ht' /\ wf ht' /\ size ht' = new_size /\
    contents ht' = contents ht /\ count ht' = count ht.
Proof.
  intros Hwf Hcal Hnn Hpos. unfold ht_resize. rewrite Hcal.
  rewrite rehash_buckets_chain.
  2: { pose proof (wf_length ht Hwf). lia. }
  rewrite drop_0.
  replace (Z.to_nat (size ht)) with (length (buckets ht))
    by (pose proof (wf_length ht Hwf); lia).
  rewrite firstn_all.
  assert (new_size * sizeof_Entry_ptr < 2 ^ 64) as Hfit.
  { unfold calloc in Hcal. apply andb_true_iff in Hcal as [_ H]. lia. }
  pose proof (empty_table_wf new_size Hnn Hfit) as Hwf0.
  edestruct (rehash_chain_spec new_size (entries ht) _ Hwf0)
    as (ht' & Hrun & Hwf' & Hsz' & Hperm); [reflexivity | exact Hpos | | | ].
  - apply (wf_nodup ht Hwf).
  - intros e _. unfold entries at 1. simpl. rewrite join_replicate_nil.
    apply not_elem_of_nil.
  - exists ht'. split; [exact Hrun|]. split; [exact Hwf'|]. split; [exact Hsz'|].
    assert (entries ht' ≡ₚ entries ht) as Hp.
    { rewrite Hperm. unfold entries at 2. simpl.
      by rewrite join_replicate_nil, app_nil_r. }
    split.
    + unfold contents. apply list_to_map_proper.
      * apply wf_nodup_pairs, Hwf'.
      * by apply fmap_Permutation.
    + rewrite (wf_count ht' Hwf'), (wf_count ht Hwf). by rewrite Hp.
Qed.

Lemma ht_resize_fail (ok : bool) (ht : HashTable) (new_size : Z) :
  calloc ok new_size sizeof_Entry_ptr = false ->
  ht_resize ok ht new_size = Ret ht.
Proof. intros H. unfold ht_resize. by rewrite H. Qed.

(** ** [ht_put] as a whole *)

Lemma wf_double_size (ht : HashTable) :
  wf ht -> wrap64 (size ht * 2) = 2 * size ht.
Proof.
  intros Hwf. pose proof (wf_size_nonneg ht Hwf). pose proof (wf_fits ht Hwf).
  unfold sizeof_Entry_ptr in *. rewrite wrap64_small; lia.
Qed.

Lemma ht_put_spec (c m : bool) (ht : HashTable) (k v : Z) :
  wf ht -> 0 < size ht ->
  exists ht',
    ht_put c m ht k v = Ret ht' /\ wf ht' /\
    size ht' =
      (if double_gt (ht_load_factor ht) (3 # 4)
          && calloc c (wrap64 (size ht * 2)) sizeof_Entry_ptr
       then 2 * size ht else size ht) /\
    contents ht' =
      (if m || bool_decide (is_Some (contents ht !! k))
       then <[k := v]> (contents ht) else contents ht) /\
    count ht' =
      (if bool_decide (is_Some (contents ht !! k)) then count ht
       else if m then wrap64 (count ht + 1) else count ht).
Proof.
  intros Hwf Hpos. unfold ht_put.
  destruct (double_gt (ht_load_factor ht) (3 # 4)); simpl.
  - destruct (calloc c (wrap64 (size ht * 2)) sizeof_Entry_ptr) eqn:C.
    + destruct (ht_resize_spec c ht _ Hwf C)
        as (ht1 & Hrun & Hwf1 & Hsz1 & Hct1 & Hn1).
      { apply wrap64_range. }
      { right. rewrite (wf_double_size ht Hwf). lia. }
      rewrite Hrun, bind_Ret. rewrite (wf_double_size ht Hwf) in Hsz1.
      destruct (put_entry_spec ht1 m k v Hwf1) as (ht' & Hput & Hwf' & Hsz' & Hct');
        [lia|].
      exists ht'. rewrite <- Hct1, <- Hsz1, <- Hn1. done.
    + rewrite (ht_resize_fail c ht _ C), bind_Ret.
      destruct (put_entry_spec ht m k v Hwf Hpos) as (ht' & Hput & Hwf' & Hsz' & Hct').
      exists ht'. done.
  - destruct (put_entry_spec ht m k v Hwf Hpos) as (ht' & Hput & Hwf' & Hsz' & Hct').
    exists ht'. done.
Qed.

(** ** Remove *)

Lemma ht_remove_spec (ht : HashTable) (k : Z) :
  wf ht -> 0 < size ht ->
  exists ht',
    ht_remove ht k = Ret (bool_decide (is_Some (contents ht !! k)), ht') /\
    wf ht' /\ size ht' = size ht /\
    contents ht' = delete k (contents ht) /\
    (contents ht !! k = None -> ht' = ht).
Proof.
  intros Hwf Hpos. unfold ht_remove.
  destruct (hash_range k (size ht) Hpos) as (i & Hi & Hr).
  destruct (wf_hash_bucket ht Hwf k i Hi) as (_ & c & Hrd & Hc).
  rewrite Hi, bind_Ret, Hrd, bind_Ret.
  pose proof (wf_bucket_lookup ht Hwf k i c Hi Hc) as Hfind.
  destruct (join_insert (buckets ht) (Z.to_nat i) c Hc) as (rest & Hold & Hnew).
  destruct (chain_unlink k c) as [c'|] eqn:U.
  - destruct (chain_unlink_Some k c c' U) as (e & Hke & Hpc).
    assert (is_Some (contents ht !! k)) as Hsome.
    { rewrite <- Hfind. destruct (chain_find k c) eqn:F; [eauto|].
      apply chain_unlink_None in F. congruence. }
    rewrite bool_decide_true by done.
    eexists. split; [reflexivity|].
    set (ht' := {| buckets := _; size := _; count := _ |}).
    assert (entries ht ≡ₚ e :: entries ht') as Hperm.
    { unfold entries. simpl. rewrite Hnew, Hold, Hpc. reflexivity. }
    pose proof (wf_nodup ht Hwf) as Hnd.
    rewrite Hperm, fmap_cons in Hnd. apply NoDup_cons in Hnd as [Hne Hnd'].
    assert (wf ht') as Hwf'.
    { constructor; simpl.
      - rewrite length_insert. apply (wf_length ht Hwf).
      - apply (wf_fits ht Hwf).
      - rewrite (wf_count ht Hwf), wrap64_pred. f_equal.
        rewrite Hperm. simpl length. fold (entries ht'). lia.
      - apply wf_home_insert; [done|]. intros e' He'.
        assert (e' ∈ c) as Hin by (rewrite Hpc; by right).
        pose proof (wf_home ht Hwf _ c e' Hc Hin) as H.
        rewrite Z2Nat.id in * by lia. exact H.
      - exact Hnd'. }
    split; [exact Hwf'|]. split; [reflexivity|].
    split; [|intros Hn; rewrite Hn in Hsome; by destruct Hsome].
    unfold contents at 2.
    rewrite (list_to_map_proper _ (entry_pair <$> (e :: entries ht'))).
    2: { apply wf_nodup_pairs, Hwf. }
    2: { by apply fmap_Permutation. }
    rewrite fmap_cons. unfold entry_pair at 1. rewrite list_to_map_cons, Hke.
    symmetry. apply delete_insert_id.
    apply not_elem_of_list_to_map_1. rewrite entry_pair_keys. by rewrite <- Hke.
  - assert (contents ht !! k = None) as Hnone.
    { rewrite <- Hfind. by apply chain_unlink_None. }
    rewrite Hnone, bool_decide_false by (intros [? ?]; done).
    exists ht. split; [reflexivity|]. split; [exact Hwf|]. split; [reflexivity|].
    split; [|done]. symmetry. by apply delete_id.
Qed.

(** ** Clear *)

Lemma clear_buckets_spec (n i : nat) (bs : list (list Entry)) :
  (i + n <= length bs)%nat ->
  clear_buckets bs i n = Ret (take i bs ++ replicate n [] ++ drop (i + n) bs).
Proof.
  revert i bs. induction n as [|n IH]; intros i bs Hlen; simpl.
  - by rewrite Nat.add_0_r, take_drop.
  - destruct (lookup_lt_is_Some_2 bs i) as [c Hc]; [lia|].
    unfold read_bucket. rewrite Nat2Z.id, Hc, bind_Ret.
    rewrite IH by (rewrite length_insert; lia).
    f_equal.
    rewrite (take_S_r (<[i := []]> bs) i []).
    2: { apply list_lookup_insert_eq. lia. }
    rewrite take_insert_ge by lia. rewrite drop_insert_lt by lia.
    rewrite <- app_assoc. simpl.
    by replace (i + S n)%nat with (S (i + n)) by lia.
Qed.

Lemma ht_clear_spec (ht : HashTable) :
  wf ht ->
  ht_clear (Some ht)
  = Ret (Some {| buckets := replicate (Z.to_nat (size ht)) [];
                 size := size ht; count := 0 |}).
Proof.
  intros Hwf. unfold ht_clear.
  pose proof (wf_length ht Hwf) as Hlen.
  rewrite clear_buckets_spec by lia. rewrite bind_Ret.
  rewrite take_0, drop_ge by lia. by rewrite app_nil_r.
Qed.

(** ** Reachable tables are well formed *)

Lemma ht_create_wf (m c : bool) (sz : Z) (ht : HashTable) :
  0 <= sz -> ht_create m c sz = Some ht ->
  wf ht /\ size ht = sz /\ contents ht = ∅.
Proof.
  intros Hsz. unfold ht_create.
  destruct m; [|discriminate].
  destruct (calloc c sz sizeof_Entry_ptr) eqn:C; [|discriminate].
  intros [= <-]. unfold calloc in C. apply andb_true_iff in C as [_ C].
  split; [apply empty_table_wf; lia|]. split; [reflexivity|].
  apply empty_table_contents.
Qed.

(** Without buckets there is nothing to rehash and nowhere to insert. *)
Lemma ht_resize_size_zero (c : bool) (ht : HashTable) :
  size ht = 0 ->
  exists ht1, ht_resize c ht (wrap64 (size ht * 2)) = Ret ht1 /\ size ht1 = 0.
Proof.
  intros Hz. unfold ht_resize. rewrite Hz.
  change (wrap64 (0 * 2)) with 0. change (Z.to_nat 0) with O.
  destruct (calloc c 0 sizeof_Entry_ptr); simpl; eauto.
Qed.

Lemma ht_put_size_zero (c m : bool) (ht : HashTable) (k v : Z) :
  size ht = 0 -> ht_put c m ht k v = Undef.
Proof.
  intros Hz. unfold ht_put.
  assert (forall ht1 : HashTable, size ht1 = 0 -> put_entry m ht1 k v = Undef) as Hput.
  { intros ht1 Hz1. unfold put_entry. by rewrite Hz1, hash_zero. }
  destruct (double_gt (ht_load_factor ht) (3 # 4)).
  - destruct (ht_resize_size_zero c ht Hz) as (ht1 & -> & Hz1).
    rewrite bind_Ret. by apply Hput.
  - rewrite bind_Ret. by apply Hput.
Qed.

Lemma ht_put_defined_pos (c m : bool) (ht ht' : HashTable) (k v : Z) :
  wf ht -> ht_put c m ht k v = Ret ht' -> 0 < size ht.
Proof.
  intros Hwf Hput. pose proof (wf_size_nonneg ht Hwf) as Hnn.
  destruct (Z.eq_dec (size ht) 0) as [Hz|]; [|lia].
  rewrite (ht_put_size_zero c m ht k v Hz) in Hput. discriminate.
Qed.

Lemma reachable_wf (ht : HashTable) : reachable ht -> wf ht.
Proof.
  induction 1 as [m c sz ht Hsz Hcr | c m ht ht' k v _ IH Hput
                 | ht ht' k b _ IH Hrm | ht ht' _ IH Hcl].
  - apply (ht_create_wf m c sz ht); [lia|done].
  - pose proof (ht_put_defined_pos c m ht ht' k v IH Hput) as Hpos.
    destruct (ht_put_spec c m ht k v IH Hpos) as (ht1 & Hput1 & Hwf1 & _).
    congruence.
  - assert (0 < size ht) as Hpos.
    { pose proof (wf_size_nonneg ht IH).
      destruct (Z.eq_dec (size ht) 0) as [Hz|]; [|lia].
      unfold ht_remove in Hrm. rewrite Hz, hash_zero in Hrm. discriminate. }
    destruct (ht_remove_spec ht k IH Hpos) as (ht1 & Hrm1 & Hwf1 & _).
    congruence.
  - rewrite (ht_clear_spec ht IH) in Hcl. injection Hcl as <-.
    apply empty_table_wf; [apply (wf_size_nonneg ht IH)|apply (wf_fits ht IH)].
Qed.

(** ** The sample run *)

Lemma table0_created : ht_create true true 4 = Some table0.
Proof. reflexivity. Qed.

Lemma table3_run : put_all [call 0 10; call 1 11; call 2 12] table0 = Ret table3.
Proof. vm_compute. reflexivity. Qed.

Lemma table4_put : ht_put true true table3 3 13 = Ret table4.
Proof. vm_compute. reflexivity. Qed.

Lemma put_all_reachable (calls : list put_call) (ht ht' : HashTable) :
  reachable ht -> put_all calls ht = Ret ht' -> reachable ht'.
Proof.
  revert ht. induction calls as [|c calls IH]; intros ht Hr Hrun; simpl in Hrun.
  - by injection Hrun as <-.
  - apply bind_inv in Hrun as (ht1 & Hput & Hrun).
    apply (IH ht1); [|exact Hrun]. eapply reachable_put; eauto.
Qed.

Lemma table0_reachable : reachable table0.
Proof. apply (reachable_create true true 4); [lia|reflexivity]. Qed.

Lemma table3_reachable : reachable table3.
Proof. exact (put_all_reachable _ _ _ table0_reachable table3_run). Qed.

Lemma table4_reachable : reachable table4.
Proof. exact (reachable_put _ _ _ _ _ _ table3_reachable table4_put). Qed.

(** The scenario of the test entry of hash64.c: eight buckets, three
    keys, then the keys 0, 1000, ..., 9000.  The capacity doubles once, at
    the eighth insertion, and thirteen entries end up in sixteen
    buckets. *)
Example scenario_eight_buckets :
  exists ht0 ht1 ht2,
    ht_create true true 8 = Some ht0 /\
    put_all [call 1001 1; call 2002 50; call 99999999999 127] ht0 = Ret ht1 /\
    ht_size ht1 = 3 /\
    ht_get ht1 2002 (Some 0) = Ret (true, Some 50) /\
    put_all [call 0 0; call 1000 1; call 2000 2; call 3000 3; call 4000 4;
             call 5000 5; call 6000 6; call 7000 7; call 8000 8; call 9000 9]
      ht1 = Ret ht2 /\
    size ht2 = 16 /\ ht_size ht2 = 13 /\
    ht_get ht2 1001 (Some 0) = Ret (true, Some 1) /\
    ht_get ht2 2002 (Some 0) = Ret (true, Some 50) /\
    ht_get ht2 99999999999 (Some 0) = Ret (true, Some 127) /\
    ht_get ht2 8888 (Some 0) = Ret (false, Some 0) /\
    ht_contains ht2 1001 = Ret true /\
    ht_remove ht2 8888 = Ret (false, ht2).
Proof.
  eexists _, _, _. split; [reflexivity|].
  split; [vm_compute; reflexivity|]. split; [reflexivity|].
  split; [vm_compute; reflexivity|].
  split; [vm_compute; reflexivity|].
  repeat split; vm_compute; reflexivity.
Qed.

(** * The laws of the table *)

(** ** The hash function *)

(** C8: for every key and every positive capacity, [hash] yields one
    bucket index (the same at every call, being a function of its two
    arguments) and that index lies in [0, capacity). *)
Theorem hash_deterministic_in_range (k capacity : Z) :
  0 < capacity ->
  (exists i, hash k capacity = Ret i /\ 0 <= i < capacity) /\
  (forall i j, hash k capacity = Ret i -> hash k capacity = Ret j -> i = j).
Proof.
  intros Hpos. split; [by apply hash_range|].
  intros i j Hi Hj. congruence.
Qed.

Lemma hash_deterministic_in_range_witness :
  0 < 8 /\
  ((exists i, hash 1001 8 = Ret i /\ 0 <= i < 8) /\
   (forall i j, hash 1001 8 = Ret i -> hash 1001 8 = Ret j -> i = j)).
Proof. split; [lia | apply (hash_deterministic_in_range 1001 8); lia]. Defined.

(** ** Insertion and lookup *)

Lemma put_all_lookup (calls : list put_call) (ht : HashTable) :
  wf ht -> 0 < size ht ->
  NoDup (put_key <$> calls) ->
  exists ht',
    put_all calls ht = Ret ht' /\ wf ht' /\ 0 < size ht' /\
    (forall c, c ∈ calls ->
        node_alloc c = true \/ is_Some (contents ht !! put_key c) ->
        contents ht' !! put_key c = Some (put_value c)) /\
    (forall c, c ∈ calls ->
        node_alloc c = false -> contents ht !! put_key c = None ->
        contents ht' !! put_key c = None) /\
    (forall k, k ∉ put_key <$> calls -> contents ht' !! k = contents ht !! k).
Proof.
  revert ht. induction calls as [|c calls IH]; intros ht Hwf Hpos Hnd.
  - exists ht. cbn [put_all]. split; [done|]. split; [done|]. split; [done|].
    split; [|split; [|done]]; intros c Hc; by apply elem_of_nil in Hc.
  - rewrite fmap_cons in Hnd. apply NoDup_cons in Hnd as [Hne Hnd].
    destruct (ht_put_spec (resize_alloc c) (node_alloc c) ht (put_key c)
                (put_value c) Hwf Hpos)
      as (ht1 & Hput & Hwf1 & Hsz1 & Hct1 & _).
    assert (0 < size ht1) as Hpos1 by (rewrite Hsz1; goal_if; lia).
    assert (forall k, k <> put_key c -> contents ht1 !! k = contents ht !! k)
      as Hother.
    { intros k Hk. rewrite Hct1. goal_if; [by rewrite lookup_insert_ne|done]. }
    assert (forall c', c' ∈ calls -> put_key c' <> put_key c) as Hdiff.
    { intros c' Hc' Heq. apply Hne. rewrite <- Heq. by apply list_elem_of_fmap_2. }
    destruct (IH ht1 Hwf1 Hpos1 Hnd)
      as (ht' & Hrun & Hwf' & Hpos' & Hin & Hmiss & Hout).
    exists ht'. cbn [put_all]. rewrite Hput, bind_Ret.
    split; [exact Hrun|]. split; [exact Hwf'|]. split; [exact Hpos'|].
    split; [|split].
    + intros c' [->|Hc']%elem_of_cons Hok.
      * rewrite (Hout _ Hne), Hct1.
        assert (node_alloc c || bool_decide (is_Some (contents ht !! put_key c))
                = true) as ->; [|apply lookup_insert_eq].
        destruct Hok as [->|Hs]; [reflexivity|].
        apply orb_true_iff. right. by apply bool_decide_eq_true.
      * apply (Hin c' Hc'). by rewrite (Hother _ (Hdiff c' Hc')).
    + intros c' [->|Hc']%elem_of_cons Hfail Hnone.
      * rewrite (Hout _ Hne), Hct1, Hfail, Hnone.
        rewrite bool_decide_false by (intros [? ?]; done). exact Hnone.
      * apply (Hmiss c' Hc' Hfail). by rewrite (Hother _ (Hdiff c' Hc')).
    + intros k Hk. apply not_elem_of_cons in Hk as [Hk1 Hk2].
      by rewrite (Hout k Hk2), (Hother k Hk1).
Qed.

(** C1: a table is created with a positive capacity and receives [ht_put]
    calls with pairwise distinct keys, whatever the allocator answers.
    Every call is defined, and afterwards [ht_get] returns true on every
    inserted key (every key whose node was allocated) and stores the key's
    value in the cell, and returns false, leaving the cell alone, on every
    key that was not inserted: the keys of no call, and the keys whose
    node could not be allocated. *)
Theorem put_distinct_then_get
    (malloc_ok calloc_ok : bool) (capacity : Z) (calls : list put_call)
    (ht0 : HashTable) :
  0 < capacity ->
  ht_create malloc_ok calloc_ok capacity = Some ht0 ->
  NoDup (put_key <$> calls) ->
  exists ht,
    put_all calls ht0 = Ret ht /\
    (forall c cell, c ∈ calls -> node_alloc c = true ->
        ht_get ht (put_key c) (Some cell) = Ret (true, Some (put_value c))) /\
    (forall c out_value, c ∈ calls -> node_alloc c = false ->
        ht_get ht (put_key c) out_value = Ret (false, out_value)) /\
    (forall k out_value, k ∉ put_key <$> calls ->
        ht_get ht k out_value = Ret (false, out_value)).
Proof.
  intros Hpos Hcr Hnd.
  assert (0 <= capacity) as Hnn by lia.
  destruct (ht_create_wf _ _ capacity ht0 Hnn Hcr) as (Hwf0 & Hsz0 & Hct0).
  rewrite <- Hsz0 in Hpos.
  destruct (put_all_lookup calls ht0 Hwf0 Hpos Hnd)
    as (ht & Hrun & Hwf & Hpos' & Hin & Hmiss & Hout).
  exists ht. split; [exact Hrun|]. split; [|split].
  - intros c cell Hc Hok. rewrite (ht_get_contents ht Hwf _ _ Hpos').
    rewrite (Hin c Hc); [done|by left].
  - intros c out Hc Hfail. rewrite (ht_get_contents ht Hwf _ _ Hpos').
    rewrite (Hmiss c Hc Hfail); [done|]. by rewrite Hct0, lookup_empty.
  - intros k out Hk. rewrite (ht_get_contents ht Hwf _ _ Hpos').
    by rewrite (Hout k Hk), Hct0, lookup_empty.
Qed.

Lemma put_distinct_then_get_witness :
  0 < 4 /\
  ht_create true true 4 = Some table0 /\
  NoDup (put_key <$> [call 0 10; call 1 11; call 2 12]) /\
  exists ht,
    put_all [call 0 10; call 1 11; call 2 12] table0 = Ret ht /\
    (forall c cell, c ∈ [call 0 10; call 1 11; call 2 12] ->
        node_alloc c = true ->
        ht_get ht (put_key c) (Some cell) = Ret (true, Some (put_value c))) /\
    (forall c out_value, c ∈ [call 0 10; call 1 11; call 2 12] ->
        node_alloc c = false ->
        ht_get ht (put_key c) out_value = Ret (false, out_value)) /\
    (forall k out_value, k ∉ put_key <$> [call 0 10; call 1 11; call 2 12] ->
        ht_get ht k out_value = Ret (false, out_value)).
Proof.
  assert (NoDup (put_key <$> [call 0 10; call 1 11; call 2 12])) as Hnd
    by (apply (bool_decide_unpack _); vm_compute; exact I).
  split; [lia|]. split; [reflexivity|]. split; [exact Hnd|].
  apply (put_distinct_then_get true true 4);
    [lia | reflexivity | exact Hnd].
Defined.

(** ** The load factor *)

Lemma wf_size_zero_entries (ht : HashTable) :
  wf ht -> size ht = 0 -> entries ht = [].
Proof.
  intros Hwf Hz. pose proof (wf_length ht Hwf) as Hlen. unfold entries.
  destruct (buckets ht); [reflexivity|]. simpl in Hlen. lia.
Qed.

Lemma wf_count_nonneg (ht : HashTable) : wf ht -> 0 <= count ht < 2 ^ 64.
Proof. intros Hwf. rewrite (wf_count ht Hwf). apply wrap64_range. Qed.

Lemma wf_load_pos (ht : HashTable) :
  wf ht -> double_gt (ht_load_factor ht) (3 # 4) = true -> 0 < size ht.
Proof.
  intros Hwf. unfold ht_load_factor.
  pose proof (wf_size_nonneg ht Hwf) as Hnn.
  destruct (Z.eq_dec (size ht) 0) as [Hz|Hz]; [|lia].
  rewrite (wf_count ht Hwf), (wf_size_zero_entries ht Hwf Hz), Hz. simpl.
  discriminate.
Qed.

Lemma wf_load_test (ht : HashTable) :
  wf ht -> size ht < 2 ^ 52 ->
  double_gt (ht_load_factor ht) (3 # 4) = true <->
  0 < size ht /\ 3 * size ht < 4 * count ht.
Proof.
  intros Hwf Hsmall. pose proof (wf_count_nonneg ht Hwf) as Hc.
  split.
  - intros L. pose proof (wf_load_pos ht Hwf L) as Hpos.
    unfold ht_load_factor in L. rewrite load_test in L by lia. lia.
  - intros [Hpos H]. unfold ht_load_factor. rewrite load_test by lia. lia.
Qed.

(** Above [2^52] buckets the rounding shows: with [2^52 + 1] buckets and
    3377699720527873 entries the exact quotient is above 0.75 and the
    [double] one is 0.75. *)
Example load_test_rounds :
  3 * (2 ^ 52 + 1) < 4 * 3377699720527873 /\
  double_gt (double_div (double_of_size_t 3377699720527873)
               (double_of_size_t (2 ^ 52 + 1))) (3 # 4) = false.
Proof. split; [lia|vm_compute; reflexivity]. Qed.

(** The rounding of [double_of_size_t] and [double_div] against the
    Standard Library's IEEE 754 specification: small tables, zero
    divisors, quotients next to 0.75 below and above [2^52] buckets, and
    the largest [size_t] values. *)
Example load_test_agrees_with_ieee :
  forallb
    (fun p =>
       eqb (double_gt (double_div (double_of_size_t p.1)
                         (double_of_size_t p.2)) (3 # 4))
           (ieee_load_test p.1 p.2))
    [ (0, 0); (5, 0); (0, 7); (3, 4); (4, 4); (7, 8); (6, 8); (13, 16);
      (1, 1); (1, 2); (2, 3); (15361, 20480); (15360, 20480);
      (3377699720527872, 2 ^ 52); (3377699720527873, 2 ^ 52);
      (3377699720527873, 2 ^ 52 + 1); (3377699720527874, 2 ^ 52 + 1);
      (3377699720527875, 2 ^ 52 + 1);
      (3 * 2 ^ 58 + 1, 2 ^ 60); (3 * 2 ^ 58 + 64, 2 ^ 60);
      (3 * 2 ^ 58 + 65, 2 ^ 60); (3 * 2 ^ 58 + 128, 2 ^ 60);
      (3 * 2 ^ 58 + 129, 2 ^ 60 + 3); (2 ^ 53 + 1, 2 ^ 53 + 3);
      (2 ^ 64 - 1, 2 ^ 64 - 1); (2 ^ 64 - 1, 1); (1, 2 ^ 64 - 1);
      (3 * 2 ^ 62, 2 ^ 64 - 1); (3 * 2 ^ 62 + 2 ^ 11, 2 ^ 64 - 1);
      (3 * 2 ^ 62 + 2 ^ 12, 2 ^ 64 - 2 ^ 11);
      (13835058055282165761, 18446744073709549568);
      (9007199254740993, 12009599006321322); (9007199254740995, 12009599006321324) ]
  = true.
Proof. vm_compute. reflexivity. Qed.

(** C2, as stated, fails.  The table of four buckets built by [ht_create]
    and three insertions holds three entries; its load factor, 0.75, is
    not above 0.75, so the fourth [ht_put] inserts without resizing: on
    return four buckets hold four entries and the load factor is above
    0.75. *)
Lemma load_factor_exceeded_after_put :
  ht_create true true 4 = Some table0 /\
  put_all [call 0 10; call 1 11; call 2 12] table0 = Ret table3 /\
  ht_put true true table3 3 13 = Ret table4 /\
  size table4 = 4 /\ ht_size table4 = 4 /\
  double_gt (ht_load_factor table4) (3 # 4) = true.
Proof.
  split; [exact table0_created|]. split; [exact table3_run|].
  split; [exact table4_put|]. repeat split.
Qed.

(** C2, amended: [ht_put] tests the load factor as it is on entry, before
    the insertion.  Exactly when that value, the [double] quotient, is
    above 0.75 the capacity is doubled first (the allocation succeeding);
    the node inserted afterwards is not counted by the test.  What a put
    preserves, on a table of fewer than [2^52] buckets (where the
    [double] quotient compares with 0.75 as the exact one does), is
    [count <= 0.75 * capacity + 1]. *)
Theorem put_tests_load_factor_on_entry (c m : bool) (ht : HashTable) (k v : Z) :
  reachable ht -> 0 < size ht ->
  (double_gt (ht_load_factor ht) (3 # 4) = true ->
   calloc c (wrap64 (size ht * 2)) sizeof_Entry_ptr = true) ->
  exists ht',
    ht_put c m ht k v = Ret ht' /\
    size ht' =
      (if double_gt (ht_load_factor ht) (3 # 4) then 2 * size ht else size ht) /\
    (size ht < 2 ^ 52 ->
     4 * count ht <= 3 * size ht + 4 -> 4 * count ht' <= 3 * size ht' + 4).
Proof.
  intros Hr Hpos Hcal. pose proof (reachable_wf ht Hr) as Hwf.
  destruct (ht_put_spec c m ht k v Hwf Hpos) as (ht' & Hput & Hwf' & Hsz & _ & Hn).
  exists ht'. split; [exact Hput|].
  pose proof (wf_count_nonneg ht Hwf) as Hc0.
  assert (count ht' <= count ht + 1) as Hle.
  { rewrite Hn. pose proof (wrap64_range (count ht + 1)).
    assert (wrap64 (count ht + 1) <= count ht + 1)
      by (unfold wrap64; apply Z.mod_le; lia).
    destruct (bool_decide _); [lia|]. destruct m; lia. }
  destruct (double_gt (ht_load_factor ht) (3 # 4)) eqn:L.
  - rewrite (Hcal eq_refl) in Hsz. simpl in Hsz. split; [exact Hsz|].
    rewrite Hsz. lia.
  - simpl in Hsz. split; [exact Hsz|]. intros Hsmall _. rewrite Hsz.
    assert (~ (0 < size ht /\ 3 * size ht < 4 * count ht)) as Hno.
    { rewrite <- (wf_load_test ht Hwf Hsmall). congruence. }
    lia.
Qed.

Lemma put_tests_load_factor_on_entry_witness :
  double_gt (ht_load_factor table4) (3 # 4) = true /\
  size table4 < 2 ^ 52 /\
  exists ht',
    ht_put true true table4 4 14 = Ret ht' /\
    size ht' = 8 /\
    4 * count ht' <= 3 * size ht' + 4.
Proof.
  split; [reflexivity|]. split; [simpl; lia|].
  destruct (put_tests_load_factor_on_entry true true table4 4 14)
    as (ht' & Hput & Hsz & Hbound).
  - exact table4_reachable.
  - simpl. lia.
  - intros _. reflexivity.
  - exists ht'. split; [exact Hput|]. split; [exact Hsz|].
    apply Hbound; simpl; lia.
Defined.

(** ** Resize *)

(** C3: a resize whose allocation succeeds makes the capacity exactly twice
    the old one, leaves the count as it was, and keeps every pair of the
    table retrievable by [ht_get] ([ht_get] answers as before on every
    key).  This holds in every reachable state, so at every crossing of
    the threshold: the [ht_put] that finds the load factor above 0.75
    returns a table of twice the capacity in which the other pairs are
    retrievable, and that table is reachable in turn. *)
Theorem resize_doubles_and_preserves (ok : bool) (ht : HashTable) :
  reachable ht ->
  calloc ok (wrap64 (size ht * 2)) sizeof_Entry_ptr = true ->
  exists ht',
    ht_resize ok ht (wrap64 (size ht * 2)) = Ret ht' /\
    size ht' = 2 * size ht /\
    ht_size ht' = ht_size ht /\
    (forall e cell, e ∈ entries ht ->
        ht_get ht' (key e) (Some cell) = Ret (true, Some (value e))) /\
    (forall k out_value, 0 < size ht ->
        ht_get ht' k out_value = ht_get ht k out_value) /\
    (forall m k v, double_gt (ht_load_factor ht) (3 # 4) = true ->
        exists ht2,
          ht_put ok m ht k v = Ret ht2 /\ reachable ht2 /\
          size ht2 = 2 * size ht /\
          forall e cell, e ∈ entries ht -> key e <> k ->
            ht_get ht2 (key e) (Some cell) = Ret (true, Some (value e))).
Proof.
  intros Hr Hcal. pose proof (reachable_wf ht Hr) as Hwf.
  pose proof (wf_size_nonneg ht Hwf) as Hnn.
  destruct (ht_resize_spec ok ht _ Hwf Hcal)
    as (ht' & Hrun & Hwf' & Hsz & Hct & Hn).
  { apply wrap64_range. }
  { destruct (Z.eq_dec (size ht) 0) as [Hz|Hz].
    - left. by apply wf_size_zero_entries.
    - right. rewrite (wf_double_size ht Hwf). lia. }
  rewrite (wf_double_size ht Hwf) in Hsz.
  exists ht'. split; [exact Hrun|]. split; [exact Hsz|]. split; [exact Hn|].
  assert (forall e, e ∈ entries ht -> 0 < size ht) as Hne.
  { intros e He. apply (wf_entries_size ht Hwf). intros E.
    rewrite E in He. by apply elem_of_nil in He. }
  split; [|split].
  - intros e cell He. rewrite (ht_get_contents ht' Hwf') by (specialize (Hne e He); lia).
    by rewrite Hct, (wf_entry_contents ht Hwf e He).
  - intros k out Hpos. rewrite (ht_get_contents ht' Hwf') by lia.
    by rewrite (ht_get_contents ht Hwf), Hct.
  - intros m k v L. pose proof (wf_load_pos ht Hwf L) as Hpos.
    destruct (ht_put_spec ok m ht k v Hwf Hpos) as (ht2 & Hput & Hwf2 & Hsz2 & Hct2 & _).
    rewrite L, Hcal in Hsz2. simpl in Hsz2.
    exists ht2. split; [exact Hput|].
    split; [by apply (reachable_put ok m ht ht2 k v)|]. split; [exact Hsz2|].
    intros e cell He Hk. rewrite (ht_get_contents ht2 Hwf2) by lia.
    assert (contents ht2 !! key e = Some (value e)) as ->; [|done].
    rewrite Hct2. destruct (_ || _).
    + rewrite lookup_insert_ne by done. by apply wf_entry_contents.
    + by apply wf_entry_contents.
Qed.

Lemma resize_doubles_and_preserves_witness :
  exists ht',
    ht_resize true table4 (wrap64 (size table4 * 2)) = Ret ht' /\
    size ht' = 8 /\
    ht_size ht' = 4 /\
    (forall e cell, e ∈ entries table4 ->
        ht_get ht' (key e) (Some cell) = Ret (true, Some (value e))) /\
    (forall k out_value, ht_get ht' k out_value = ht_get table4 k out_value) /\
    (forall m k v,
        exists ht2,
          ht_put true m table4 k v = Ret ht2 /\ reachable ht2 /\
          size ht2 = 8 /\
          forall e cell, e ∈ entries table4 -> key e <> k ->
            ht_get ht2 (key e) (Some cell) = Ret (true, Some (value e))).
Proof.
  destruct (resize_doubles_and_preserves true table4)
    as (ht' & Hrun & Hsz & Hn & Hkeep & Hsame & Hput).
  - exact table4_reachable.
  - reflexivity.
  - exists ht'. split; [exact Hrun|]. split; [exact Hsz|]. split; [exact Hn|].
    split; [exact Hkeep|]. split.
    + intros k out. apply Hsame. simpl. lia.
    + intros m k v. apply Hput. reflexivity.
Defined.

(** ** Upsert *)

(** C4: in every reachable table no key occurs in two nodes, whatever the
    chains; and two successive [ht_put] on the same key (the first one
    getting its node) leave [ht_get] answering the second value, the
    second call not changing [ht_size]. *)
Theorem put_upsert_no_duplicates
    (ht : HashTable) (c1 c2 m2 : bool) (k v1 v2 : Z) :
  reachable ht ->
  NoDup (key <$> entries ht) /\
  (0 < size ht ->
   exists ht1 ht2,
     ht_put c1 true ht k v1 = Ret ht1 /\
     ht_put c2 m2 ht1 k v2 = Ret ht2 /\
     (forall cell, ht_get ht2 k (Some cell) = Ret (true, Some v2)) /\
     ht_size ht2 = ht_size ht1 /\
     NoDup (key <$> entries ht2)).
Proof.
  intros Hr. pose proof (reachable_wf ht Hr) as Hwf.
  split; [apply (wf_nodup ht Hwf)|]. intros Hpos.
  destruct (ht_put_spec c1 true ht k v1 Hwf Hpos)
    as (ht1 & Hput1 & Hwf1 & Hsz1 & Hct1 & _).
  simpl in Hct1.
  assert (0 < size ht1) as Hpos1 by (rewrite Hsz1; goal_if; lia).
  destruct (ht_put_spec c2 m2 ht1 k v2 Hwf1 Hpos1)
    as (ht2 & Hput2 & Hwf2 & Hsz2 & Hct2 & Hn2).
  assert (0 < size ht2) as Hpos2 by (rewrite Hsz2; goal_if; lia).
  assert (is_Some (contents ht1 !! k)) as Hin
    by (rewrite Hct1, lookup_insert_eq; eauto).
  rewrite bool_decide_true in Hct2, Hn2 by done. rewrite orb_true_r in Hct2.
  exists ht1, ht2. split; [exact Hput1|]. split; [exact Hput2|]. split.
  - intros cell. rewrite (ht_get_contents ht2 Hwf2) by lia.
    by rewrite Hct2, lookup_insert_eq.
  - split; [exact Hn2|apply (wf_nodup ht2 Hwf2)].
Qed.

Lemma put_upsert_no_duplicates_witness :
  NoDup (key <$> entries table3) /\
  exists ht1 ht2,
    ht_put true true table3 2 20 = Ret ht1 /\
    ht_put true true ht1 2 21 = Ret ht2 /\
    (forall cell, ht_get ht2 2 (Some cell) = Ret (true, Some 21)) /\
    ht_size ht2 = ht_size ht1 /\
    NoDup (key <$> entries ht2).
Proof.
  destruct (put_upsert_no_duplicates table3 true true true 2 20 21
              table3_reachable) as [Hnd Hput].
  split; [exact Hnd|]. apply Hput. simpl. lia.
Defined.

(** ** Removal *)

Lemma contents_size (ht : HashTable) :
  wf ht -> base.size (contents ht) = length (entries ht).
Proof.
  intros Hwf. unfold contents.
  rewrite map_size_list_to_map by (by apply wf_nodup_pairs).
  apply length_fmap.
Qed.

Lemma contents_absent (ht : HashTable) (k : Z) :
  k ∉ key <$> entries ht -> contents ht !! k = None.
Proof.
  intros Hk. apply not_elem_of_list_to_map_1. by rewrite entry_pair_keys.
Qed.

(** C5: in a reachable table whose entries number fewer than [2^64 - 1],
    after [ht_put] of a key (its node allocation succeeding) [ht_remove]
    of that key returns true, [ht_get] then misses the key, [ht_size] is
    one less than before the removal, and a second [ht_remove] returns
    false; [ht_remove] of a key that is not in the table returns false and
    leaves the table, hence [ht_size], as it was. *)
Theorem remove_law
    (ht : HashTable) (c : bool) (k v k' : Z) (out_value : option Z) :
  reachable ht -> 0 < size ht ->
  Z.of_nat (length (entries ht)) < 2 ^ 64 - 1 ->
  (exists ht1 ht2,
     ht_put c true ht k v = Ret ht1 /\
     ht_remove ht1 k = Ret (true, ht2) /\
     ht_get ht2 k out_value = Ret (false, out_value) /\
     ht_size ht2 = ht_size ht1 - 1 /\
     ht_remove ht2 k = Ret (false, ht2)) /\
  (k' ∉ key <$> entries ht -> ht_remove ht k' = Ret (false, ht)).
Proof.
  intros Hr Hpos Hlen. pose proof (reachable_wf ht Hr) as Hwf. split.
  - destruct (ht_put_spec c true ht k v Hwf Hpos)
      as (ht1 & Hput & Hwf1 & Hsz1 & Hct1 & _).
    simpl in Hct1.
    assert (0 < size ht1) as Hpos1 by (rewrite Hsz1; goal_if; lia).
    assert (is_Some (contents ht1 !! k)) as Hin
      by (rewrite Hct1, lookup_insert_eq; eauto).
    destruct (ht_remove_spec ht1 k Hwf1 Hpos1)
      as (ht2 & Hrm & Hwf2 & Hsz2 & Hct2 & _).
    rewrite bool_decide_true in Hrm by done.
    assert (contents ht2 !! k = None) as Hgone
      by (rewrite Hct2; apply lookup_delete_eq).
    destruct (ht_remove_spec ht2 k Hwf2 ltac:(lia))
      as (ht3 & Hrm' & _ & _ & _ & Hsame).
    rewrite (Hsame Hgone), Hgone, bool_decide_false in Hrm'
      by (intros [? ?]; done).
    exists ht1, ht2. split; [exact Hput|]. split; [exact Hrm|]. split.
    { rewrite (ht_get_contents ht2 Hwf2) by lia. by rewrite Hgone. }
    split; [|exact Hrm'].
    unfold ht_size.
    rewrite (wf_count_contents ht2 Hwf2), (wf_count_contents ht1 Hwf1), Hct2.
    rewrite map_size_delete_Some by done.
    assert (1 <= base.size (contents ht1) <= S (length (entries ht)))%nat as Hn.
    { rewrite Hct1, map_size_insert, <- (contents_size ht Hwf).
      destruct (contents ht !! k) as [w|] eqn:E; simpl; [|lia].
      assert (base.size (contents ht) <> 0%nat); [|lia].
      intros Hz. apply map_size_empty_inv in Hz. rewrite Hz in E. 
      by rewrite lookup_empty in E. }
    rewrite !wrap64_small by lia. lia.
  - intros Hk. apply contents_absent in Hk.
    destruct (ht_remove_spec ht k' Hwf Hpos) as (ht1 & Hrm & _ & _ & _ & Hsame).
    rewrite (Hsame Hk), Hk, bool_decide_false in Hrm by (intros [? ?]; done).
    exact Hrm.
Qed.

Lemma remove_law_witness :
  Z.of_nat (length (entries table3)) < 2 ^ 64 - 1 /\
  (exists ht1 ht2,
     ht_put true true table3 7 70 = Ret ht1 /\
     ht_remove ht1 7 = Ret (true, ht2) /\
     ht_get ht2 7 (Some 0) = Ret (false, Some 0) /\
     ht_size ht2 = ht_size ht1 - 1 /\
     ht_remove ht2 7 = Ret (false, ht2)) /\
  ht_remove table3 8888 = Ret (false, table3).
Proof.
  assert (Z.of_nat (length (entries table3)) < 2 ^ 64 - 1) as Hlen
    by (vm_compute; reflexivity).
  split; [exact Hlen|].
  destruct (remove_law table3 true 7 70 8888 (Some 0)) as [Hput Habsent].
  - exact table3_reachable.
  - simpl. lia.
  - exact Hlen.
  - split; [exact Hput|]. apply Habsent.
    apply (bool_decide_unpack _). vm_compute. exact I.
Defined.

(** ** Clear *)

(** C6: [ht_clear] on a reachable table sets [ht_size] to 0 and empties
    every bucket, so that [ht_get] misses every key the table held (and
    any other), while the capacity and the length of the bucket array are
    what they were. *)
Theorem clear_law (ht : HashTable) :
  reachable ht ->
  exists ht',
    ht_clear (Some ht) = Ret (Some ht') /\
    ht_size ht' = 0 /\
    Forall (fun chain => chain = []) (buckets ht') /\
    size ht' = size ht /\
    length (buckets ht') = length (buckets ht) /\
    (forall e out_value, e ∈ entries ht ->
        ht_get ht' (key e) out_value = Ret (false, out_value)) /\
    (forall k out_value, 0 < size ht ->
        ht_get ht' k out_value = Ret (false, out_value)).
Proof.
  intros Hr. pose proof (reachable_wf ht Hr) as Hwf.
  pose proof (wf_size_nonneg ht Hwf) as Hnn.
  eexists. split; [apply (ht_clear_spec ht Hwf)|].
  set (ht' := {| buckets := _; size := _; count := _ |}).
  assert (wf ht') as Hwf'
    by (apply empty_table_wf; [exact Hnn|apply (wf_fits ht Hwf)]).
  assert (forall k out, 0 < size ht -> ht_get ht' k out = Ret (false, out)) as Hmiss.
  { intros k out Hpos. rewrite (ht_get_contents ht' Hwf') by exact Hpos.
    unfold ht'. by rewrite empty_table_contents, lookup_empty. }
  split; [reflexivity|]. split.
  { simpl. apply Forall_forall. intros c Hc.
    by apply elem_of_replicate in Hc as [-> _]. }
  split; [reflexivity|]. split.
  { simpl. rewrite length_replicate. pose proof (wf_length ht Hwf). lia. }
  split; [|exact Hmiss].
  intros e out He. apply Hmiss. apply (wf_entries_size ht Hwf).
  intros E. rewrite E in He. by apply elem_of_nil in He.
Qed.

Lemma clear_law_witness :
  exists ht',
    ht_clear (Some table4) = Ret (Some ht') /\
    ht_size ht' = 0 /\
    Forall (fun chain => chain = []) (buckets ht') /\
    size ht' = size table4 /\
    length (buckets ht') = length (buckets table4) /\
    (forall e out_value, e ∈ entries table4 ->
        ht_get ht' (key e) out_value = Ret (false, out_value)) /\
    (forall k out_value, 0 < size table4 ->
        ht_get ht' k out_value = Ret (false, out_value)).
Proof. apply (clear_law table4). exact table4_reachable. Defined.

(** ** A resize that cannot allocate *)

(** C7: when the load factor of a reachable table is above 0.75 and the
    bucket array of the resize cannot be allocated, [ht_resize] returns
    the table as it was (same bucket array, capacity, count and entries)
    and [ht_put] goes on with the insertion proper on that table: the
    capacity and the number of buckets stay, the key is bound to the new
    value when it was there or when its node is allocated, the other keys
    answer as before, and the load factor is still above 0.75. *)
Theorem resize_failure_keeps_table (c m : bool) (ht : HashTable) (k v : Z) :
  reachable ht ->
  double_gt (ht_load_factor ht) (3 # 4) = true ->
  calloc c (wrap64 (size ht * 2)) sizeof_Entry_ptr = false ->
  ht_resize c ht (wrap64 (size ht * 2)) = Ret ht /\
  exists ht',
    ht_put c m ht k v = Ret ht' /\
    put_entry m ht k v = Ret ht' /\
    size ht' = size ht /\
    length (buckets ht') = length (buckets ht) /\
    (m = true \/ k ∈ key <$> entries ht ->
     forall cell, ht_get ht' k (Some cell) = Ret (true, Some v)) /\
    (forall k' out_value, k' <> k ->
        ht_get ht' k' out_value = ht_get ht k' out_value) /\
    (ht_size ht' = ht_size ht \/ ht_size ht' = wrap64 (ht_size ht + 1)) /\
    (ht_size ht + 1 < 2 ^ 64 ->
     double_gt (ht_load_factor ht') (3 # 4) = true).
Proof.
  intros Hr L Hcal. pose proof (reachable_wf ht Hr) as Hwf.
  pose proof (ht_resize_fail c ht _ Hcal) as Hres. split; [exact Hres|].
  pose proof (wf_load_pos ht Hwf L) as Hpos.
  destruct (put_entry_spec ht m k v Hwf Hpos)
    as (ht' & Hput & Hwf' & Hsz & Hct & Hn).
  exists ht'. split.
  { unfold ht_put. by rewrite L, Hres, bind_Ret. }
  split; [exact Hput|]. split; [exact Hsz|]. split.
  { pose proof (wf_length ht Hwf). pose proof (wf_length ht' Hwf'). lia. }
  split.
  { intros Hin cell. rewrite (ht_get_contents ht' Hwf') by lia.
    assert (m || bool_decide (is_Some (contents ht !! k)) = true) as Hb.
    { destruct Hin as [->|Hin]; [reflexivity|].
      apply orb_true_iff. right. apply bool_decide_eq_true.
      apply list_elem_of_fmap in Hin as (e & -> & He).
      rewrite (wf_entry_contents ht Hwf e He). eauto. }
    by rewrite Hct, Hb, lookup_insert_eq. }
  split.
  { intros k' out Hk. rewrite (ht_get_contents ht' Hwf') by lia.
    rewrite (ht_get_contents ht Hwf) by lia. rewrite Hct.
    goal_if; [by rewrite lookup_insert_ne|done]. }
  assert (ht_size ht' = ht_size ht \/ ht_size ht' = wrap64 (ht_size ht + 1)) as Hcnt.
  { unfold ht_size. rewrite Hn. destruct (bool_decide _); [by left|].
    destruct m; [by right|by left]. }
  split; [exact Hcnt|]. intros Hfit.
  pose proof (wf_count_nonneg ht Hwf) as Hc0. unfold ht_size in *.
  unfold ht_load_factor in *. rewrite Hsz.
  apply (load_test_mono (count ht)); [|exact Hpos|exact L].
  destruct Hcnt as [->| ->]; [lia|]. rewrite wrap64_small by lia. lia.
Qed.

Lemma resize_failure_keeps_table_witness :
  double_gt (ht_load_factor table4) (3 # 4) = true /\
  ht_resize false table4 (wrap64 (size table4 * 2)) = Ret table4 /\
  exists ht',
    ht_put false true table4 4 14 = Ret ht' /\
    put_entry true table4 4 14 = Ret ht' /\
    size ht' = size table4 /\
    length (buckets ht') = length (buckets table4) /\
    (forall cell, ht_get ht' 4 (Some cell) = Ret (true, Some 14)) /\
    (forall k' out_value, k' <> 4 ->
        ht_get ht' k' out_value = ht_get table4 k' out_value) /\
    (ht_size ht' = ht_size table4 \/ ht_size ht' = wrap64 (ht_size table4 + 1)) /\
    double_gt (ht_load_factor ht') (3 # 4) = true.
Proof.
  split; [reflexivity|].
  destruct (resize_failure_keeps_table false true table4 4 14)
    as (Hres & ht' & Hput & Hentry & Hsz & Hlen & Hget & Hother & Hcnt & Hload).
  - exact table4_reachable.
  - reflexivity.
  - reflexivity.
  - split; [exact Hres|]. exists ht'. split; [exact Hput|].
    split; [exact Hentry|]. split; [exact Hsz|]. split; [exact Hlen|].
    split; [apply Hget; by left|]. split; [exact Hother|].
    split; [exact Hcnt|]. apply Hload. simpl. lia.
Defined.

(** ** The partition query *)

(** C9: on an initialised partition map (a reachable table of positive
    capacity) [query_partition] returns the value bound to the key when
    the table holds the key, and [(affinity_value_t) -1 = 4294967295] when
    it does not, as on a map just created with [INIT_BULK_SIZE] buckets
    and as [ht_get_value] does; on a map that was never initialised (a
    NULL [partition_map]) it returns the same [4294967295]. *)
Theorem query_partition_not_found (ht : HashTable) (k : Z) :
  reachable ht -> 0 < size ht ->
  (forall v, {| key := k; value := v |} ∈ entries ht ->
      Affinity.query_partition (Some ht) k = Ret v) /\
  (k ∉ key <$> entries ht ->
      Affinity.query_partition (Some ht) k = Ret (wrap32 (-1))) /\
  Affinity.query_partition None k = Ret (wrap32 (-1)) /\
  wrap32 (-1) = 4294967295 /\
  (forall malloc_ok calloc_ok ht0,
      ht_create malloc_ok calloc_ok Affinity.INIT_BULK_SIZE = Some ht0 ->
      Affinity.query_partition (Some ht0) k = Ret (wrap32 (-1))) /\
  ht_get_value ht k = Affinity.query_partition (Some ht) k.
Proof.
  intros Hr Hpos. pose proof (reachable_wf ht Hr) as Hwf.
  assert (forall t, wf t -> 0 < size t ->
            Affinity.query_partition (Some t) k
            = Ret (default (wrap32 (-1)) (contents t !! k))) as Hq.
  { intros t Ht Hp. unfold Affinity.query_partition.
    rewrite (ht_get_contents t Ht) by exact Hp. rewrite bind_Ret.
    by destruct (contents t !! k). }
  split; [|split; [|split; [|split; [|split]]]].
  - intros v Hv. rewrite (Hq ht Hwf Hpos).
    pose proof (wf_entry_contents ht Hwf _ Hv) as Hin. simpl in Hin.
    by rewrite Hin.
  - intros Hk. by rewrite (Hq ht Hwf Hpos), (contents_absent ht k Hk).
  - reflexivity.
  - reflexivity.
  - intros mo co ht0 Hcr.
    assert (0 <= Affinity.INIT_BULK_SIZE) as Hnn
      by (unfold Affinity.INIT_BULK_SIZE; lia).
    destruct (ht_create_wf mo co _ ht0 Hnn Hcr) as (Hwf0 & Hsz0 & Hct0).
    rewrite (Hq ht0 Hwf0) by (rewrite Hsz0; unfold Affinity.INIT_BULK_SIZE; lia).
    by rewrite Hct0, lookup_empty.
  - by rewrite (Hq ht Hwf Hpos), (ht_get_value_contents ht Hwf).
Qed.

Lemma query_partition_not_found_witness :
  Affinity.query_partition (Some table3) 2 = Ret 12 /\
  Affinity.query_partition (Some table3) 8888 = Ret 4294967295 /\
  Affinity.query_partition None 8888 = Ret 4294967295.
Proof.
  destruct (query_partition_not_found table3 2) as (Hfound & _).
  { exact table3_reachable. }
  { simpl. lia. }
  destruct (query_partition_not_found table3 8888)
    as (_ & Hmiss & Hnull & <- & _).
  { exact table3_reachable. }
  { simpl. lia. }
  split; [|split; [|exact Hnull]].
  - apply Hfound. unfold entries. simpl. repeat constructor.
  - apply Hmiss. apply (bool_decide_unpack _). vm_compute. exact I.
Defined.

(** ** The zero capacity *)

(** C10: [hash] takes the remainder by the capacity without testing it,
    and [ht_create] hands out a table for the capacity 0 (when its
    allocations succeed); on a reachable table each operation that locates
    a bucket is undefined exactly when the capacity is 0.  So the
    operations are defined only under [capacity > 0], which [ht_create]
    does not check. *)
Theorem zero_capacity_undefined
    (ht : HashTable) (c m : bool) (k v : Z) (out_value : option Z) :
  reachable ht ->
  hash k 0 = Undef /\
  ht_create true true 0 = Some {| buckets := []; size := 0; count := 0 |} /\
  (size ht = 0 <-> ht_put c m ht k v = Undef) /\
  (size ht = 0 <-> ht_get ht k out_value = Undef) /\
  (size ht = 0 <-> ht_get_value ht k = Undef) /\
  (size ht = 0 <-> ht_contains ht k = Undef) /\
  (size ht = 0 <-> ht_remove ht k = Undef).
Proof.
  intros Hr. pose proof (reachable_wf ht Hr) as Hwf.
  pose proof (wf_size_nonneg ht Hwf) as Hnn.
  split; [reflexivity|]. split; [reflexivity|].
  assert (forall (A : Type) (x : res A),
             (size ht = 0 -> x = Undef) -> (0 < size ht -> exists a, x = Ret a) ->
             size ht = 0 <-> x = Undef) as Hiff.
  { intros A x H0 Hp. split; [exact H0|]. intros Hx.
    destruct (Z.eq_dec (size ht) 0) as [|Hne]; [done|].
    destruct Hp as [a Ha]; [lia|congruence]. }
  split; [|split; [|split; [|split]]]; apply Hiff.
  - apply ht_put_size_zero.
  - intros Hpos. destruct (ht_put_spec c m ht k v Hwf Hpos) as (ht' & H & _). eauto.
  - intros Hz. unfold ht_get. by rewrite Hz, hash_zero.
  - intros Hpos. rewrite (ht_get_contents ht Hwf) by exact Hpos. eauto.
  - intros Hz. unfold ht_get_value. by rewrite Hz, hash_zero.
  - intros Hpos. rewrite (ht_get_value_contents ht Hwf) by exact Hpos. eauto.
  - intros Hz. unfold ht_contains, ht_get. by rewrite Hz, hash_zero.
  - intros Hpos. unfold ht_contains.
    rewrite (ht_get_contents ht Hwf) by exact Hpos. rewrite bind_Ret. eauto.
  - intros Hz. unfold ht_remove. by rewrite Hz, hash_zero.
  - intros Hpos. destruct (ht_remove_spec ht k Hwf Hpos) as (ht' & H & _). eauto.
Qed.

Lemma zero_capacity_undefined_witness :
  ht_create true true 0 = Some {| buckets := []; size := 0; count := 0 |} /\
  ht_put true true {| buckets := []; size := 0; count := 0 |} 1001 1 = Undef /\
  ht_get {| buckets := []; size := 0; count := 0 |} 1001 (Some 0) = Undef /\
  ht_get_value {| buckets := []; size := 0; count := 0 |} 1001 = Undef /\
  ht_contains {| buckets := []; size := 0; count := 0 |} 1001 = Undef /\
  ht_remove {| buckets := []; size := 0; count := 0 |} 1001 = Undef.
Proof.
  destruct (zero_capacity_undefined {| buckets := []; size := 0; count := 0 |}
              true true 1001 1 (Some 0))
    as (_ & Hcr & Hput & Hget & Hval & Hcon & Hrm).
  - apply (reachable_create true true 0); [lia|reflexivity].
  - split; [exact Hcr|]. split; [by apply Hput|]. split; [by apply Hget|].
    split; [by apply Hval|]. split; [by apply Hcon|by apply Hrm].
Defined.

(** * Further properties of hash64.c *)

(** ** The mixing rounds of [hash] *)

Lemma hash_mix_spec (k sz : Z) :
  hash k sz = if sz =? 0 then Undef else Ret (wrap32 (hash_mix k mod sz)).
Proof. reflexivity. Qed.

Lemma uint64_high_bits (h n : Z) :
  0 <= h < 2 ^ 64 -> 64 <= n -> Z.testbit h n = false.
Proof.
  intros Hh Hn. rewrite <- (Z.mod_small h (2 ^ 64)) by lia.
  apply Z.mod_pow2_bits_high. lia.
Qed.

Lemma xorshift_range (h : Z) :
  0 <= h < 2 ^ 64 -> 0 <= Z.lxor h (Z.shiftr h 33) < 2 ^ 64.
Proof.
  intros Hh.
  assert (0 <= Z.lxor h (Z.shiftr h 33)) as Hnn.
  { apply Z.lxor_nonneg. split; intros _; [apply Z.shiftr_nonneg|]; lia. }
  split; [exact Hnn|].
  assert (Z.lxor h (Z.shiftr h 33) = Z.lxor h (Z.shiftr h 33) mod 2 ^ 64) as ->.
  { apply Z.bits_inj'. intros n Hn.
    rewrite Z.testbit_mod_pow2 by lia.
    destruct (n <? 64) eqn:E; [reflexivity|]. apply Z.ltb_ge in E. simpl.
    rewrite Z.lxor_spec, Z.shiftr_spec by lia.
    by rewrite !(uint64_high_bits h) by lia. }
  apply Z.mod_pos_bound. lia.
Qed.

Lemma xorshift_involutive (h : Z) :
  0 <= h < 2 ^ 64 ->
  Z.lxor (Z.lxor h (Z.shiftr h 33)) (Z.shiftr (Z.lxor h (Z.shiftr h 33)) 33) = h.
Proof.
  intros Hh. apply Z.bits_inj'. intros n Hn.
  rewrite !Z.lxor_spec, !Z.shiftr_spec, Z.lxor_spec, Z.shiftr_spec by lia.
  rewrite (uint64_high_bits h (n + 33 + 33)) by lia.
  by destruct (Z.testbit h n), (Z.testbit h (n + 33)).
Qed.

Lemma xorshift_inj (a b : Z) :
  0 <= a < 2 ^ 64 -> 0 <= b < 2 ^ 64 ->
  Z.lxor a (Z.shiftr a 33) = Z.lxor b (Z.shiftr b 33) -> a = b.
Proof.
  intros Ha Hb Heq.
  rewrite <- (xorshift_involutive a Ha), <- (xorshift_involutive b Hb).
  by rewrite Heq.
Qed.

Lemma wrap64_mul_inj (c cinv a b : Z) :
  wrap64 (c * cinv) = 1 ->
  0 <= a < 2 ^ 64 -> 0 <= b < 2 ^ 64 ->
  wrap64 (a * c) = wrap64 (b * c) -> a = b.
Proof.
  unfold wrap64. intros Hinv Ha Hb Heq.
  assert (forall x, 0 <= x < 2 ^ 64 -> ((x * c) mod 2 ^ 64 * cinv) mod 2 ^ 64 = x)
    as Hback.
  { intros x Hx. rewrite Z.mul_mod_idemp_l by lia.
    rewrite <- Z.mul_assoc, <- Z.mul_mod_idemp_r, Hinv by lia.
    rewrite Z.mul_1_r. apply Z.mod_small. lia. }
  rewrite <- (Hback a Ha), <- (Hback b Hb). by rewrite Heq.
Qed.

Lemma wrap64_signed_inj (a b : Z) :
  - 2 ^ 63 <= a < 2 ^ 63 -> - 2 ^ 63 <= b < 2 ^ 63 ->
  wrap64 a = wrap64 b -> a = b.
Proof.
  unfold wrap64. intros Ha Hb Heq.
  pose proof (Z.div_mod a (2 ^ 64) ltac:(lia)) as Hda.
  pose proof (Z.div_mod b (2 ^ 64) ltac:(lia)) as Hdb.
  rewrite Heq in Hda. lia.
Qed.

(** X1: the mixing rounds of [hash] lose nothing: two distinct [int64]
    keys never have the same mixed value, so that two keys share a bucket
    only through the reduction modulo the capacity (and the cast to
    [unsigned int]) that [hash] applies to the mixed value. *)
Theorem hash_mix_injective (k1 k2 : Z) :
  - 2 ^ 63 <= k1 < 2 ^ 63 -> - 2 ^ 63 <= k2 < 2 ^ 63 ->
  (forall capacity, 0 < capacity ->
      hash k1 capacity = Ret (wrap32 (hash_mix k1 mod capacity))) /\
  (hash_mix k1 = hash_mix k2 -> k1 = k2).
Proof.
  intros H1 H2. split.
  { intros sz Hsz. rewrite hash_mix_spec. destruct (sz =? 0) eqn:E; [lia|done]. }
  unfold hash_mix. intros Heq.
  apply wrap64_signed_inj; [done|done|].
  pose proof (wrap64_range k1) as R1. pose proof (wrap64_range k2) as R2.
  apply xorshift_inj in Heq; [|apply wrap64_range|apply wrap64_range].
  apply (wrap64_mul_inj _ 11291846944257947611) in Heq;
    [|reflexivity|by apply xorshift_range; apply wrap64_range..].
  apply xorshift_inj in Heq; [|apply wrap64_range|apply wrap64_range].
  apply (wrap64_mul_inj _ 5725274745694666757) in Heq;
    [|reflexivity|by apply xorshift_range..].
  by apply xorshift_inj in Heq.
Qed.

Lemma hash_mix_injective_witness :
  (forall capacity, 0 < capacity ->
      hash 1001 capacity = Ret (wrap32 (hash_mix 1001 mod capacity))) /\
  (hash_mix 1001 = hash_mix 2002 -> 1001 = 2002).
Proof. apply (hash_mix_injective 1001 2002); lia. Defined.

(** ** The shape of reachable tables *)

Lemma hash_unsigned_int (k sz i : Z) : hash k sz = Ret i -> 0 <= i < 2 ^ 32.
Proof.
  rewrite hash_mix_spec. destruct (sz =? 0); [discriminate|].
  intros [= <-]. unfold wrap32. apply Z.mod_pos_bound. lia.
Qed.

(** X2: in every reachable table the array has as many chains as [size]
    says, [ht_size] is the number of nodes (as a [size_t]), and every node
    sits in the chain of the bucket [hash] gives for its key under the
    current capacity. *)
Theorem reachable_table_shape (ht : HashTable) :
  reachable ht ->
  Z.of_nat (length (buckets ht)) = size ht /\
  ht_size ht = wrap64 (Z.of_nat (length (entries ht))) /\
  (forall (i : nat) (chain : list Entry) (e : Entry),
      buckets ht !! i = Some chain -> e ∈ chain ->
      hash (key e) (size ht) = Ret (Z.of_nat i)).
Proof.
  intros Hr. pose proof (reachable_wf ht Hr) as Hwf.
  split; [apply (wf_length ht Hwf)|]. split; [apply (wf_count ht Hwf)|].
  apply (wf_home ht Hwf).
Qed.

Lemma reachable_table_shape_witness :
  Z.of_nat (length (buckets table4)) = size table4 /\
  ht_size table4 = wrap64 (Z.of_nat (length (entries table4))) /\
  (forall (i : nat) (chain : list Entry) (e : Entry),
      buckets table4 !! i = Some chain -> e ∈ chain ->
      hash (key e) (size table4) = Ret (Z.of_nat i)).
Proof. apply (reachable_table_shape table4). exact table4_reachable. Defined.

(** X3: [hash] returns an [unsigned int], so no node of a reachable table
    is ever linked in a bucket of index [2^32] or more, however large the
    capacity: such buckets stay empty. *)
Theorem buckets_beyond_unsigned_int_unused
    (ht : HashTable) (i : nat) (chain : list Entry) (e : Entry) :
  reachable ht ->
  buckets ht !! i = Some chain -> e ∈ chain ->
  Z.of_nat i < 2 ^ 32.
Proof.
  intros Hr Hi He. pose proof (reachable_wf ht Hr) as Hwf.
  pose proof (wf_home ht Hwf i chain e Hi He) as Hh.
  apply hash_unsigned_int in Hh. lia.
Qed.

Lemma buckets_beyond_unsigned_int_unused_witness :
  buckets table4 !! 3%nat = Some [{| key := 2; value := 12 |}] /\
  Z.of_nat 3 < 2 ^ 32.
Proof.
  split; [reflexivity|].
  apply (buckets_beyond_unsigned_int_unused table4 3
           [{| key := 2; value := 12 |}] {| key := 2; value := 12 |}).
  - exact table4_reachable.
  - reflexivity.
  - apply list_elem_of_here.
Defined.

(** ** Lookups *)

Lemma contents_is_Some (ht : HashTable) (k : Z) :
  is_Some (contents ht !! k) <-> k ∈ key <$> entries ht.
Proof.
  rewrite <- entry_pair_keys, <- not_eq_None_Some.
  unfold contents. rewrite <- (not_elem_of_list_to_map (M := gmap Z)).
  split; [|tauto]. intros H. by apply dec_stable.
Qed.

(** X4: on a reachable table of positive capacity [ht_contains] tells
    whether some node holds the key, and it is the flag [ht_get] returns,
    whatever the cell passed to [ht_get]. *)
Theorem ht_contains_membership
    (ht : HashTable) (k : Z) (out_value : option Z) :
  reachable ht -> 0 < size ht ->
  ht_contains ht k = Ret (bool_decide (k ∈ key <$> entries ht)) /\
  exists cell,
    ht_get ht k out_value = Ret (bool_decide (k ∈ key <$> entries ht), cell).
Proof.
  intros Hr Hpos. pose proof (reachable_wf ht Hr) as Hwf.
  unfold ht_contains. rewrite !(ht_get_contents ht Hwf) by exact Hpos.
  rewrite bind_Ret.
  destruct (contents ht !! k) as [v|] eqn:E; simpl.
  - rewrite bool_decide_true by (apply contents_is_Some; rewrite E; eauto).
    eauto.
  - rewrite bool_decide_false; [eauto|].
    rewrite <- contents_is_Some, E. by intros [? ?].
Qed.

Lemma ht_contains_membership_witness :
  ht_contains table4 3 = Ret (bool_decide (3 ∈ key <$> entries table4)) /\
  exists cell,
    ht_get table4 3 (Some 0)
    = Ret (bool_decide (3 ∈ key <$> entries table4), cell).
Proof.
  apply (ht_contains_membership table4 3 (Some 0)).
  - exact table4_reachable.
  - simpl. lia.
Defined.

(** X5: [ht_get_value] cannot tell a missing key from a key bound to
    [(affinity_value_t) -1]: on a reachable table of positive capacity it
    returns 4294967295 exactly when no node holds the key or the node of
    the key holds 4294967295; otherwise it returns the value of the
    node. *)
Theorem ht_get_value_sentinel (ht : HashTable) (k : Z) :
  reachable ht -> 0 < size ht ->
  (ht_get_value ht k = Ret 4294967295 <->
   k ∉ key <$> entries ht \/ {| key := k; value := 4294967295 |} ∈ entries ht) /\
  (forall v, {| key := k; value := v |} ∈ entries ht ->
      ht_get_value ht k = Ret v).
Proof.
  intros Hr Hpos. pose proof (reachable_wf ht Hr) as Hwf.
  rewrite (ht_get_value_contents ht Hwf) by exact Hpos.
  assert (forall v, {| key := k; value := v |} ∈ entries ht ->
            contents ht !! k = Some v) as Hin.
  { intros v Hv. apply (wf_entry_contents ht Hwf _ Hv). }
  split.
  - split.
    + intros Hret. destruct (contents ht !! k) as [v|] eqn:E.
      * right. apply (wf_contents_entry ht). simpl in Hret. congruence.
      * left. rewrite <- contents_is_Some, E. by intros [? ?].
    + intros [Hk|Hv].
      * rewrite <- contents_is_Some in Hk.
        destruct (contents ht !! k) eqn:E; [|reflexivity].
        exfalso. apply Hk. eauto.
      * by rewrite (Hin _ Hv).
  - intros v Hv. by rewrite (Hin v Hv).
Qed.

Lemma ht_get_value_sentinel_witness :
  (ht_get_value table4 8888 = Ret 4294967295 <->
   8888 ∉ key <$> entries table4 \/
   {| key := 8888; value := 4294967295 |} ∈ entries table4) /\
  (forall v, {| key := 8888; value := v |} ∈ entries table4 ->
      ht_get_value table4 8888 = Ret v).
Proof.
  apply (ht_get_value_sentinel table4 8888).
  - exact table4_reachable.
  - simpl. lia.
Defined.

(** ** What [ht_put] and [ht_remove] leave alone *)

(** X6: [ht_put] touches the binding of its own key only: on a reachable
    table of positive capacity, whether or not it resizes and whatever the
    allocator answers, [ht_get] answers on every other key as it did
    before the call. *)
Theorem ht_put_other_keys
    (c m : bool) (ht : HashTable) (k v k' : Z) (out_value : option Z) :
  reachable ht -> 0 < size ht -> k' <> k ->
  exists ht',
    ht_put c m ht k v = Ret ht' /\
    ht_get ht' k' out_value = ht_get ht k' out_value.
Proof.
  intros Hr Hpos Hk. pose proof (reachable_wf ht Hr) as Hwf.
  destruct (ht_put_spec c m ht k v Hwf Hpos) as (ht' & Hput & Hwf' & Hsz & Hct & _).
  exists ht'. split; [exact Hput|].
  assert (0 < size ht') as Hpos' by (rewrite Hsz; goal_if; lia).
  rewrite (ht_get_contents ht' Hwf'), (ht_get_contents ht Hwf) by lia.
  rewrite Hct. goal_if; [by rewrite lookup_insert_ne|done].
Qed.

Lemma ht_put_other_keys_witness :
  exists ht',
    ht_put true true table4 4 14 = Ret ht' /\
    ht_get ht' 2 (Some 0) = ht_get table4 2 (Some 0).
Proof.
  apply (ht_put_other_keys true true table4 4 14 2 (Some 0)).
  - exact table4_reachable.
  - simpl. lia.
  - lia.
Defined.

(** X7: when the node of a new key cannot be allocated, [ht_put] returns
    without a sign to its caller and the pair is lost: the key is still
    missing, every key answers as before and [ht_size] is unchanged (the
    capacity may have doubled all the same). *)
Theorem ht_put_node_allocation_failure
    (c : bool) (ht : HashTable) (k v : Z) :
  reachable ht -> 0 < size ht -> k ∉ key <$> entries ht ->
  exists ht',
    ht_put c false ht k v = Ret ht' /\
    ht_contains ht' k = Ret false /\
    ht_size ht' = ht_size ht /\
    (forall k' out_value, ht_get ht' k' out_value = ht_get ht k' out_value).
Proof.
  intros Hr Hpos Hk. pose proof (reachable_wf ht Hr) as Hwf.
  destruct (ht_put_spec c false ht k v Hwf Hpos)
    as (ht' & Hput & Hwf' & Hsz & Hct & Hn).
  assert (contents ht !! k = None) as Hnone by (by apply contents_absent).
  rewrite Hnone, bool_decide_false in Hct, Hn by (by intros [? ?]).
  simpl in Hct.
  assert (0 < size ht') as Hpos' by (rewrite Hsz; goal_if; lia).
  exists ht'. split; [exact Hput|]. split; [|split; [exact Hn|]].
  - unfold ht_contains. rewrite (ht_get_contents ht' Hwf') by lia.
    by rewrite Hct, Hnone.
  - intros k' out.
    rewrite (ht_get_contents ht' Hwf'), (ht_get_contents ht Hwf) by lia.
    by rewrite Hct.
Qed.

Lemma ht_put_node_allocation_failure_witness :
  exists ht',
    ht_put true false table4 4 14 = Ret ht' /\
    ht_contains ht' 4 = Ret false /\
    ht_size ht' = ht_size table4 /\
    (forall k' out_value,
        ht_get ht' k' out_value = ht_get table4 k' out_value).
Proof.
  apply (ht_put_node_allocation_failure true table4 4 14).
  - exact table4_reachable.
  - simpl. lia.
  - apply (bool_decide_unpack _). vm_compute. exact I.
Defined.

(** X8: inserting a new key and removing it again gives back the table's
    contents: on a reachable table of positive capacity, after [ht_put] of
    a key that was missing and [ht_remove] of that key, [ht_get] answers
    on every key as it did at the start and [ht_size] is what it was. *)
Theorem put_then_remove_restores
    (c m : bool) (ht : HashTable) (k v : Z) :
  reachable ht -> 0 < size ht -> k ∉ key <$> entries ht ->
  exists ht1 b ht2,
    ht_put c m ht k v = Ret ht1 /\
    ht_remove ht1 k = Ret (b, ht2) /\
    b = m /\
    ht_size ht2 = ht_size ht /\
    (forall k' out_value, ht_get ht2 k' out_value = ht_get ht k' out_value).
Proof.
  intros Hr Hpos Hk. pose proof (reachable_wf ht Hr) as Hwf.
  destruct (ht_put_spec c m ht k v Hwf Hpos)
    as (ht1 & Hput & Hwf1 & Hsz1 & Hct1 & _).
  assert (contents ht !! k = None) as Hnone by (by apply contents_absent).
  rewrite Hnone, bool_decide_false, orb_false_r in Hct1 by (by intros [? ?]).
  assert (0 < size ht1) as Hpos1 by (rewrite Hsz1; goal_if; lia).
  destruct (ht_remove_spec ht1 k Hwf1 Hpos1)
    as (ht2 & Hrm & Hwf2 & Hsz2 & Hct2 & _).
  assert (contents ht2 = contents ht) as Hsame.
  { rewrite Hct2, Hct1. destruct m; [by apply delete_insert_id|by apply delete_id]. }
  exists ht1, (bool_decide (is_Some (contents ht1 !! k))), ht2.
  split; [exact Hput|]. split; [exact Hrm|]. split.
  { rewrite Hct1. destruct m.
    - apply bool_decide_eq_true. rewrite lookup_insert_eq. eauto.
    - apply bool_decide_eq_false. rewrite Hnone. by intros [? ?]. }
  split.
  - unfold ht_size.
    by rewrite (wf_count_contents ht2 Hwf2), (wf_count_contents ht Hwf), Hsame.
  - intros k' out.
    rewrite (ht_get_contents ht2 Hwf2), (ht_get_contents ht Hwf) by lia.
    by rewrite Hsame.
Qed.

Lemma put_then_remove_restores_witness :
  exists ht1 b ht2,
    ht_put true true table4 4 14 = Ret ht1 /\
    ht_remove ht1 4 = Ret (b, ht2) /\
    b = true /\
    ht_size ht2 = ht_size table4 /\
    (forall k' out_value,
        ht_get ht2 k' out_value = ht_get table4 k' out_value).
Proof.
  apply (put_then_remove_restores true true table4 4 14).
  - exact table4_reachable.
  - simpl. lia.
  - apply (bool_decide_unpack _). vm_compute. exact I.
Defined.

(** X9: [ht_remove] returns whether a node held the key, never changes the
    capacity, and leaves the other keys alone: on a reachable table of
    positive capacity the key is missing afterwards and [ht_get] answers
    on every other key as before. *)
Theorem ht_remove_other_keys (ht : HashTable) (k : Z) :
  reachable ht -> 0 < size ht ->
  exists ht',
    ht_remove ht k = Ret (bool_decide (k ∈ key <$> entries ht), ht') /\
    size ht' = size ht /\
    (k ∉ key <$> entries ht') /\
    (forall k' out_value, k' <> k ->
        ht_get ht' k' out_value = ht_get ht k' out_value).
Proof.
  intros Hr Hpos. pose proof (reachable_wf ht Hr) as Hwf.
  destruct (ht_remove_spec ht k Hwf Hpos) as (ht' & Hrm & Hwf' & Hsz & Hct & _).
  exists ht'. split.
  { rewrite Hrm. do 2 f_equal. apply bool_decide_ext, contents_is_Some. }
  split; [exact Hsz|]. split.
  - rewrite <- contents_is_Some, Hct, lookup_delete_eq. by intros [? ?].
  - intros k' out Hk'.
    rewrite (ht_get_contents ht' Hwf'), (ht_get_contents ht Hwf) by lia.
    by rewrite Hct, lookup_delete_ne.
Qed.

Lemma ht_remove_other_keys_witness :
  exists ht',
    ht_remove table4 2 = Ret (bool_decide (2 ∈ key <$> entries table4), ht') /\
    size ht' = size table4 /\
    (2 ∉ key <$> entries ht') /\
    (forall k' out_value, k' <> 2 ->
        ht_get ht' k' out_value = ht_get table4 k' out_value).
Proof.
  apply (ht_remove_other_keys table4 2).
  - exact table4_reachable.
  - simpl. lia.
Defined.

(** ** Clear, destroy, and the capacity *)

Lemma destroy_buckets_spec (n i : nat) (bs : list (list Entry)) :
  (i + n <= length bs)%nat -> destroy_buckets bs i n = Ret tt.
Proof.
  revert i. induction n as [|n IH]; intros i Hlen; simpl; [reflexivity|].
  destruct (lookup_lt_is_Some_2 bs i) as [c Hc]; [lia|].
  unfold read_bucket. rewrite Nat2Z.id, Hc, bind_Ret. apply IH. lia.
Qed.

Lemma ht_destroy_reachable (ht : HashTable) :
  reachable ht -> ht_destroy (Some ht) = Ret tt.
Proof.
  intros Hr. pose proof (wf_length ht (reachable_wf ht Hr)) as Hlen.
  apply destroy_buckets_spec. lia.
Qed.

(** X10: [ht_clear] and [ht_destroy] never read outside the bucket array:
    they are defined on every reachable table, the table of capacity 0
    included (on which every lookup is undefined), and on the NULL
    pointer, which both return from at once; a second [ht_clear] changes
    nothing. *)
Theorem clear_and_destroy_defined (ht : HashTable) :
  reachable ht ->
  ht_destroy (Some ht) = Ret tt /\
  ht_destroy None = Ret tt /\
  ht_clear None = Ret None /\
  exists ht',
    ht_clear (Some ht) = Ret (Some ht') /\
    ht_clear (Some ht') = Ret (Some ht') /\
    ht_destroy (Some ht') = Ret tt.
Proof.
  intros Hr. pose proof (reachable_wf ht Hr) as Hwf.
  pose proof (wf_length ht Hwf) as Hlen.
  split; [apply destroy_buckets_spec; lia|].
  split; [reflexivity|]. split; [reflexivity|].
  eexists. split; [apply (ht_clear_spec ht Hwf)|].
  set (ht' := {| buckets := _; size := _; count := _ |}).
  assert (wf ht') as Hwf'.
  { apply empty_table_wf; [apply (wf_size_nonneg ht Hwf)|apply (wf_fits ht Hwf)]. }
  split; [apply (ht_clear_spec ht' Hwf')|].
  apply destroy_buckets_spec. pose proof (wf_length ht' Hwf'). lia.
Qed.

Lemma clear_and_destroy_defined_witness :
  ht_get {| buckets := []; size := 0; count := 0 |} 1001 None = Undef /\
  ht_destroy (Some {| buckets := []; size := 0; count := 0 |}) = Ret tt /\
  ht_destroy None = Ret tt /\
  ht_clear None = Ret None /\
  exists ht',
    ht_clear (Some {| buckets := []; size := 0; count := 0 |}) = Ret (Some ht') /\
    ht_clear (Some ht') = Ret (Some ht') /\
    ht_destroy (Some ht') = Ret tt.
Proof.
  split; [reflexivity|].
  apply (clear_and_destroy_defined {| buckets := []; size := 0; count := 0 |}).
  apply (reachable_create true true 0); [lia|reflexivity].
Defined.

Lemma run_ops_wf (ops : list op) (ht ht' : HashTable) :
  wf ht -> run_ops ops ht = Ret ht' ->
  wf ht' /\ exists n : nat, size ht' = size ht * 2 ^ Z.of_nat n.
Proof.
  revert ht. induction ops as [|o ops IH]; intros ht Hwf Hrun.
  - injection Hrun as <-. split; [exact Hwf|]. exists 0%nat. simpl. lia.
  - destruct o as [c m k v | k | ]; cbn [run_ops] in Hrun.
    + apply bind_inv in Hrun as (ht1 & Hput & Hrun).
      pose proof (ht_put_defined_pos c m ht ht1 k v Hwf Hput) as Hpos.
      destruct (ht_put_spec c m ht k v Hwf Hpos) as (ht1' & Hput' & Hwf1 & Hsz & _).
      assert (ht1' = ht1) by congruence. subst ht1'.
      destruct (IH ht1 Hwf1 Hrun) as (Hwf' & n & Hn).
      split; [exact Hwf'|]. rewrite Hn, Hsz. goal_if.
      * exists (S n). rewrite Nat2Z.inj_succ, Z.pow_succ_r by lia. lia.
      * by exists n.
    + apply bind_inv in Hrun as ([b ht1] & Hrm & Hrun). simpl in Hrun.
      assert (0 < size ht) as Hpos.
      { pose proof (wf_size_nonneg ht Hwf).
        destruct (Z.eq_dec (size ht) 0) as [Hz|]; [|lia].
        unfold ht_remove in Hrm. rewrite Hz, hash_zero in Hrm. discriminate. }
      destruct (ht_remove_spec ht k Hwf Hpos) as (ht1' & Hrm' & Hwf1 & Hsz & _).
      assert (ht1' = ht1) by congruence. subst ht1'.
      destruct (IH ht1 Hwf1 Hrun) as (Hwf' & n & Hn).
      split; [exact Hwf'|]. exists n. by rewrite Hn, Hsz.
    + rewrite (ht_clear_spec ht Hwf), bind_Ret in Hrun.
      apply IH in Hrun as (Hwf' & n & Hn).
      * split; [exact Hwf'|]. by exists n.
      * apply empty_table_wf; [apply (wf_size_nonneg ht Hwf)|apply (wf_fits ht Hwf)].
Qed.

(** X11: the capacity never shrinks and only ever doubles: after any
    sequence of [ht_put], [ht_remove] and [ht_clear] on a table created
    with some capacity, the capacity is the initial one times a power of
    two ([ht_remove] and [ht_clear] never give back buckets). *)
Theorem capacity_is_initial_times_power_of_two
    (malloc_ok calloc_ok : bool) (capacity : Z) (ops : list op)
    (ht0 ht : HashTable) :
  0 <= capacity ->
  ht_create malloc_ok calloc_ok capacity = Some ht0 ->
  run_ops ops ht0 = Ret ht ->
  exists n : nat, size ht = capacity * 2 ^ Z.of_nat n.
Proof.
  intros Hcap Hcr Hrun.
  destruct (ht_create_wf _ _ capacity ht0 Hcap Hcr) as (Hwf0 & Hsz0 & _).
  destruct (run_ops_wf ops ht0 ht Hwf0 Hrun) as (_ & n & Hn).
  exists n. by rewrite Hn, Hsz0.
Qed.

Lemma capacity_is_initial_times_power_of_two_witness :
  run_ops [Put true true 0 10; Put true true 1 11; Put true true 2 12;
           Put true true 3 13; Put true true 4 14; Remove 1; Clear] table0
  = Ret {| buckets := [[]; []; []; []; []; []; []; []]; size := 8; count := 0 |} /\
  exists n : nat, 8 = 4 * 2 ^ Z.of_nat n.
Proof.
  assert (run_ops [Put true true 0 10; Put true true 1 11; Put true true 2 12;
                   Put true true 3 13; Put true true 4 14; Remove 1; Clear] table0
          = Ret {| buckets := [[]; []; []; []; []; []; []; []];
                   size := 8; count := 0 |}) as Hrun
    by (vm_compute; reflexivity).
  split; [exact Hrun|].
  apply (capacity_is_initial_times_power_of_two true true 4 _ table0 _
           ltac:(lia) table0_created Hrun).
Defined.

(** * Further properties of affinity.c *)

(** ** Loading the partition file *)

Lemma query_partition_contents (ht : HashTable) (k : Z) :
  wf ht -> 0 < size ht ->
  Affinity.query_partition (Some ht) k
  = Ret (default (wrap32 (-1)) (contents ht !! k)).
Proof.
  intros Hwf Hpos. unfold Affinity.query_partition.
  rewrite (ht_get_contents ht Hwf) by exact Hpos. rewrite bind_Ret.
  by destruct (contents ht !! k).
Qed.

Lemma foldl_insert_other (lines : list map_line) (m : gmap Z Z) (k : Z) :
  k ∉ line_key <$> lines ->
  foldl (fun m l => <[line_key l := wrap32 (line_value l)]> m) m lines !! k
  = m !! k.
Proof.
  revert m. induction lines as [|l lines IH]; intros m Hk; [reflexivity|].
  rewrite fmap_cons in Hk. apply not_elem_of_cons in Hk as [Hk1 Hk2].
  cbn [foldl]. rewrite (IH _ Hk2). by apply lookup_insert_ne.
Qed.

Lemma foldl_insert_last (pre post : list map_line) (l : map_line) (m : gmap Z Z) :
  line_key l ∉ line_key <$> post ->
  foldl (fun m l => <[line_key l := wrap32 (line_value l)]> m) m
    (pre ++ l :: post) !! line_key l
  = Some (wrap32 (line_value l)).
Proof.
  intros Hk. rewrite foldl_app. cbn [foldl].
  rewrite (foldl_insert_other post _ _ Hk). apply lookup_insert_eq.
Qed.

Lemma load_lines_spec (lines : list map_line) (ht : HashTable) :
  reachable ht -> 0 < size ht ->
  Forall (fun l => line_malloc l = true) lines ->
  exists ht',
    load_lines lines ht = Ret (Return true (Some ht')) /\
    reachable ht' /\ 0 < size ht' /\
    contents ht'
    = foldl (fun m l => <[line_key l := wrap32 (line_value l)]> m)
        (contents ht) lines.
Proof.
  revert ht. induction lines as [|l lines IH]; intros ht Hr Hpos Hall.
  - exists ht. done.
  - apply Forall_cons in Hall as [Hl Hall].
    pose proof (reachable_wf ht Hr) as Hwf.
    destruct (ht_put_spec (line_calloc l) (line_malloc l) ht (line_key l)
                (wrap32 (line_value l)) Hwf Hpos)
      as (ht1 & Hput & Hwf1 & Hsz1 & Hct1 & _).
    rewrite Hl in Hct1. simpl in Hct1.
    assert (0 < size ht1) as Hpos1 by (rewrite Hsz1; goal_if; lia).
    assert (reachable ht1) as Hr1 by (eapply reachable_put; eauto).
    destruct (IH ht1 Hr1 Hpos1 Hall) as (ht' & Hrun & Hr' & Hpos' & Hct').
    exists ht'. cbn [load_lines foldl]. rewrite Hput, bind_Ret.
    rewrite (ht_get_value_contents ht1 Hwf1) by exact Hpos1.
    rewrite bind_Ret, Hct1, lookup_insert_eq. simpl.
    rewrite Z.eqb_refl. rewrite <- Hct1. done.
Qed.

(** X12: [load_partition_map_disk] on an initialised map whose node
    allocations succeed never calls [exit]: it returns true, and then
    [query_partition] gives, for a key of the file, the value of the last
    record of that key, converted to [affinity_value_t] (a later record
    overwrites an earlier one), and answers on the keys that the file does
    not mention as it did before the load. *)
Theorem load_last_record_wins (ht : HashTable) (lines : list map_line) :
  reachable ht -> 0 < size ht ->
  Forall (fun l => line_malloc l = true) lines ->
  exists ht',
    load_partition_map_disk (Some lines) (Some ht)
    = Ret (Return true (Some ht')) /\
    reachable ht' /\
    (forall pre l post,
        lines = pre ++ l :: post -> line_key l ∉ line_key <$> post ->
        Affinity.query_partition (Some ht') (line_key l)
        = Ret (wrap32 (line_value l))) /\
    (forall k, k ∉ line_key <$> lines ->
        Affinity.query_partition (Some ht') k
        = Affinity.query_partition (Some ht) k).
Proof.
  intros Hr Hpos Hall.
  destruct (load_lines_spec lines ht Hr Hpos Hall)
    as (ht' & Hrun & Hr' & Hpos' & Hct).
  pose proof (reachable_wf ht Hr) as Hwf.
  pose proof (reachable_wf ht' Hr') as Hwf'.
  exists ht'. split; [exact Hrun|]. split; [exact Hr'|]. split.
  - intros pre l post -> Hlast.
    rewrite (query_partition_contents ht' _ Hwf' Hpos'), Hct.
    by rewrite (foldl_insert_last pre post l _ Hlast).
  - intros k Hk.
    rewrite (query_partition_contents ht' _ Hwf' Hpos'), Hct.
    rewrite (query_partition_contents ht _ Hwf Hpos).
    by rewrite (foldl_insert_other lines _ k Hk).
Qed.

Lemma load_last_record_wins_witness :
  exists ht',
    load_partition_map_disk
      (Some [ {| line_key := 5; line_value := 1;
                 line_calloc := true; line_malloc := true |};
              {| line_key := 5; line_value := -2;
                 line_calloc := true; line_malloc := true |} ])
      (Some table3)
    = Ret (Return true (Some ht')) /\
    Affinity.query_partition (Some ht') 5 = Ret 4294967294 /\
    Affinity.query_partition (Some ht') 2 = Ret 12.
Proof.
  destruct (load_last_record_wins table3
              [ {| line_key := 5; line_value := 1;
                   line_calloc := true; line_malloc := true |};
                {| line_key := 5; line_value := -2;
                   line_calloc := true; line_malloc := true |} ])
    as (ht' & Hload & _ & Hlast & Hother).
  - exact table3_reachable.
  - simpl. lia.
  - repeat constructor.
  - exists ht'. split; [exact Hload|]. split.
    + apply (Hlast [ {| line_key := 5; line_value := 1;
                        line_calloc := true; line_malloc := true |} ]
               {| line_key := 5; line_value := -2;
                  line_calloc := true; line_malloc := true |} []);
        [reflexivity|apply not_elem_of_nil].
    + rewrite Hother; [reflexivity|].
      apply (bool_decide_unpack _). vm_compute. exact I.
Defined.

Lemma load_lines_app (pre rest : list map_line) (ht ht1 : HashTable) :
  load_lines pre ht = Ret (Return true (Some ht1)) ->
  load_lines (pre ++ rest) ht = load_lines rest ht1.
Proof.
  revert ht. induction pre as [|l pre IH]; intros ht Hrun; cbn [load_lines app] in *.
  - by injection Hrun as <-.
  - destruct (ht_put _ _ ht _ _) as [ht'|]; [|discriminate].
    rewrite bind_Ret in *.
    destruct (ht_get_value ht' (line_key l)) as [stored|]; [|discriminate].
    rewrite bind_Ret in *.
    destruct (wrap32 (line_value l) =? stored); [|discriminate].
    by apply IH.
Qed.

(** X13: the read-back test of [load_partition_map_disk] turns a failed
    node allocation into [exit(-1)]: when the records before it were
    stored, the first record whose node cannot be allocated, for a key the
    map does not hold yet and a value other than -1, ends the process,
    whatever follows in the file. *)
Theorem load_exits_on_lost_record
    (ht : HashTable) (pre rest : list map_line) (l : map_line) :
  reachable ht -> 0 < size ht ->
  Forall (fun l => line_malloc l = true) pre ->
  line_malloc l = false ->
  line_key l ∉ key <$> entries ht ->
  line_key l ∉ line_key <$> pre ->
  wrap32 (line_value l) <> wrap32 (-1) ->
  load_partition_map_disk (Some (pre ++ l :: rest)) (Some ht)
  = Ret (Exit (-1)).
Proof.
  intros Hr Hpos Hall Hfail Hnew Hpre Hval.
  destruct (load_lines_spec pre ht Hr Hpos Hall)
    as (ht1 & Hrun & Hr1 & Hpos1 & Hct1).
  cbn [load_partition_map_disk].
  rewrite (load_lines_app pre (l :: rest) ht ht1 Hrun). cbn [load_lines].
  pose proof (reachable_wf ht1 Hr1) as Hwf1.
  assert (contents ht1 !! line_key l = None) as Hnone.
  { rewrite Hct1, (foldl_insert_other pre _ _ Hpre). by apply contents_absent. }
  destruct (ht_put_spec (line_calloc l) (line_malloc l) ht1 (line_key l)
              (wrap32 (line_value l)) Hwf1 Hpos1)
    as (ht2 & Hput & Hwf2 & Hsz2 & Hct2 & _).
  rewrite Hfail, Hnone, bool_decide_false in Hct2 by (by intros [? ?]).
  simpl in Hct2.
  assert (0 < size ht2) as Hpos2 by (rewrite Hsz2; goal_if; lia).
  rewrite Hput, bind_Ret, (ht_get_value_contents ht2 Hwf2) by exact Hpos2.
  rewrite bind_Ret, Hct2, Hnone. simpl.
  destruct (wrap32 (line_value l) =? wrap32 (-1)) eqn:E; [|reflexivity].
  apply Z.eqb_eq in E. contradiction.
Qed.

Lemma load_exits_on_lost_record_witness :
  load_partition_map_disk
    (Some ([ {| line_key := 5; line_value := 1;
                line_calloc := true; line_malloc := true |} ]
           ++ {| line_key := 6; line_value := 2;
                 line_calloc := true; line_malloc := false |}
           :: [ {| line_key := 7; line_value := 3;
                   line_calloc := true; line_malloc := true |} ]))
    (Some table3)
  = Ret (Exit (-1)).
Proof.
  apply (load_exits_on_lost_record table3).
  - exact table3_reachable.
  - simpl. lia.
  - repeat constructor.
  - reflexivity.
  - apply (bool_decide_unpack _). vm_compute. exact I.
  - apply (bool_decide_unpack _). vm_compute. exact I.
  - vm_compute. discriminate.
Defined.

(** X14: the read-back test misses a lost record whose value is -1: such
    a record, its node not allocated, reads back as
    [(affinity_value_t) -1], the value [ht_get_value] gives for a missing
    key, so the load goes on and returns true although the key is not in
    the map. *)
Theorem load_misses_lost_minus_one
    (ht : HashTable) (pre : list map_line) (l : map_line) :
  reachable ht -> 0 < size ht ->
  Forall (fun l => line_malloc l = true) pre ->
  line_malloc l = false ->
  line_key l ∉ key <$> entries ht ->
  line_key l ∉ line_key <$> pre ->
  wrap32 (line_value l) = wrap32 (-1) ->
  exists ht',
    load_partition_map_disk (Some (pre ++ [l])) (Some ht)
    = Ret (Return true (Some ht')) /\
    ht_contains ht' (line_key l) = Ret false.
Proof.
  intros Hr Hpos Hall Hfail Hnew Hpre Hval.
  destruct (load_lines_spec pre ht Hr Hpos Hall)
    as (ht1 & Hrun & Hr1 & Hpos1 & Hct1).
  cbn [load_partition_map_disk].
  rewrite (load_lines_app pre [l] ht ht1 Hrun). cbn [load_lines].
  pose proof (reachable_wf ht1 Hr1) as Hwf1.
  assert (contents ht1 !! line_key l = None) as Hnone.
  { rewrite Hct1, (foldl_insert_other pre _ _ Hpre). by apply contents_absent. }
  destruct (ht_put_spec (line_calloc l) (line_malloc l) ht1 (line_key l)
              (wrap32 (line_value l)) Hwf1 Hpos1)
    as (ht2 & Hput & Hwf2 & Hsz2 & Hct2 & _).
  rewrite Hfail, Hnone, bool_decide_false in Hct2 by (by intros [? ?]).
  simpl in Hct2.
  assert (0 < size ht2) as Hpos2 by (rewrite Hsz2; goal_if; lia).
  exists ht2.
  rewrite Hput, bind_Ret, (ht_get_value_contents ht2 Hwf2) by exact Hpos2.
  rewrite bind_Ret, Hct2, Hnone. simpl. rewrite Hval, Z.eqb_refl.
  split; [reflexivity|].
  unfold ht_contains. rewrite (ht_get_contents ht2 Hwf2) by exact Hpos2.
  by rewrite Hct2, Hnone.
Qed.

Lemma load_misses_lost_minus_one_witness :
  exists ht',
    load_partition_map_disk
      (Some ([ {| line_key := 5; line_value := 1;
                  line_calloc := true; line_malloc := true |} ]
             ++ [ {| line_key := 6; line_value := -1;
                     line_calloc := true; line_malloc := false |} ]))
      (Some table3)
    = Ret (Return true (Some ht')) /\
    ht_contains ht' 6 = Ret false.
Proof.
  apply (load_misses_lost_minus_one table3
           [ {| line_key := 5; line_value := 1;
                line_calloc := true; line_malloc := true |} ]
           {| line_key := 6; line_value := -1;
              line_calloc := true; line_malloc := false |}).
  - exact table3_reachable.
  - simpl. lia.
  - repeat constructor.
  - reflexivity.
  - apply (bool_decide_unpack _). vm_compute. exact I.
  - apply (bool_decide_unpack _). vm_compute. exact I.
  - reflexivity.
Defined.

(** ** Initialisation, cleanup and the tuple query *)

(** X15: [init_partition_map] reports a failed load only once.  When the
    file cannot be opened the call returns false but leaves the empty map
    it created in [partition_map]; every later call, finding the map
    there, returns true without reading any file, and every
    [query_partition] then returns [(affinity_value_t) -1].  When
    [ht_create] fails, because the table or its bucket array cannot be
    allocated, the call returns false and [partition_map] stays NULL. *)
Theorem init_reports_failed_load_once
    (m c : bool) (file : option (list map_line)) (k : Z) :
  (ht_create m c Affinity.INIT_BULK_SIZE = None <-> m && c = false) /\
  (ht_create m c Affinity.INIT_BULK_SIZE = None ->
   init_partition_map m c file None = Ret (Return false None)) /\
  init_partition_map false c file None = Ret (Return false None) /\
  init_partition_map true false file None = Ret (Return false None) /\
  exists ht0,
    init_partition_map true true None None = Ret (Return false (Some ht0)) /\
    init_partition_map m c file (Some ht0) = Ret (Return true (Some ht0)) /\
    Affinity.query_partition (Some ht0) k = Ret (wrap32 (-1)).
Proof.
  split; [by destruct m, c|].
  split; [intros Hfail; unfold init_partition_map; by rewrite Hfail|].
  split; [reflexivity|]. split; [reflexivity|].
  destruct (ht_create true true Affinity.INIT_BULK_SIZE) as [ht0|] eqn:Hcr;
    [|discriminate].
  assert (0 <= Affinity.INIT_BULK_SIZE) as Hnn
    by (unfold Affinity.INIT_BULK_SIZE; lia).
  destruct (ht_create_wf true true _ ht0 Hnn Hcr) as (Hwf0 & Hsz0 & Hct0).
  exists ht0. split.
  { unfold init_partition_map. by rewrite Hcr. }
  split; [reflexivity|].
  rewrite (query_partition_contents ht0 k Hwf0)
    by (rewrite Hsz0; unfold Affinity.INIT_BULK_SIZE; lia).
  by rewrite Hct0, lookup_empty.
Qed.

Lemma init_reports_failed_load_once_witness :
  ht_create true false Affinity.INIT_BULK_SIZE = None /\
  init_partition_map true false None None = Ret (Return false None) /\
  init_partition_map false false None None = Ret (Return false None) /\
  exists ht0,
    init_partition_map true true None None = Ret (Return false (Some ht0)) /\
    init_partition_map true false None (Some ht0)
    = Ret (Return true (Some ht0)) /\
    Affinity.query_partition (Some ht0) 5 = Ret (wrap32 (-1)).
Proof.
  destruct (init_reports_failed_load_once true false None 5)
    as (Hiff & Hfail & _ & _ & Hrest).
  destruct (init_reports_failed_load_once false false None 5)
    as (_ & _ & Hmalloc & _).
  assert (ht_create true false Affinity.INIT_BULK_SIZE = None) as Hnone
    by (by apply Hiff).
  split; [exact Hnone|]. split; [exact (Hfail Hnone)|].
  split; [exact Hmalloc|exact Hrest].
Defined.

(** X16: [cleanup_partition_map] destroys a reachable map without reading
    outside its bucket array and leaves [partition_map] NULL; a second
    cleanup does nothing; afterwards [query_partition] returns
    [(affinity_value_t) -1] for every key, while [get_affinity_value] on a
    tuple whose column is not null passes the NULL map to [ht_get], which
    dereferences it. *)
Theorem cleanup_then_use
    (ht : HashTable) (k colValue garbage : Z) :
  reachable ht ->
  exists pm,
    cleanup_partition_map (Some ht) = Ret pm /\
    cleanup_partition_map pm = Ret pm /\
    Affinity.query_partition pm k = Ret (wrap32 (-1)) /\
    get_affinity_value pm false colValue garbage = Undef /\
    get_affinity_value pm true colValue garbage = Ret (wrap32 (-1)).
Proof.
  intros Hr. exists None. split; [|repeat split].
  unfold cleanup_partition_map.
  by rewrite (ht_destroy_reachable ht Hr).
Qed.

Lemma cleanup_then_use_witness :
  exists pm,
    cleanup_partition_map (Some table4) = Ret pm /\
    cleanup_partition_map pm = Ret pm /\
    Affinity.query_partition pm 2 = Ret (wrap32 (-1)) /\
    get_affinity_value pm false 2 0 = Undef /\
    get_affinity_value pm true 2 0 = Ret (wrap32 (-1)).
Proof. apply (cleanup_then_use table4 2 2 0). exact table4_reachable. Defined.

(** X17: on an initialised map (a reachable table of positive capacity)
    [get_affinity_value] and [query_partition] agree on the keys the map
    holds and differ on the others: for a missing key
    [get_affinity_value] returns 0, a value a key may be bound to, where
    [query_partition] returns [(affinity_value_t) -1]; a null column gives
    [(affinity_value_t) -1]; the uninitialised local never shows in the
    result. *)
Theorem get_affinity_value_not_found
    (ht : HashTable) (k garbage : Z) :
  reachable ht -> 0 < size ht ->
  (forall v, {| key := k; value := v |} ∈ entries ht ->
      get_affinity_value (Some ht) false k garbage = Ret v /\
      Affinity.query_partition (Some ht) k = Ret v) /\
  (k ∉ key <$> entries ht ->
      get_affinity_value (Some ht) false k garbage = Ret 0 /\
      Affinity.query_partition (Some ht) k = Ret 4294967295) /\
  get_affinity_value (Some ht) true k garbage = Ret 4294967295.
Proof.
  intros Hr Hpos. pose proof (reachable_wf ht Hr) as Hwf.
  assert (get_affinity_value (Some ht) false k garbage
          = Ret (default 0 (contents ht !! k))) as Hg.
  { unfold get_affinity_value. rewrite (ht_get_contents ht Hwf) by exact Hpos.
    rewrite bind_Ret. by destruct (contents ht !! k). }
  rewrite Hg, (query_partition_contents ht k Hwf Hpos).
  split; [|split; [|reflexivity]].
  - intros v Hv. pose proof (wf_entry_contents ht Hwf _ Hv) as Hin.
    simpl in Hin. by rewrite Hin.
  - intros Hk. by rewrite (contents_absent ht k Hk).
Qed.

Lemma get_affinity_value_not_found_witness :
  get_affinity_value (Some table4) false 2 77 = Ret 12 /\
  Affinity.query_partition (Some table4) 2 = Ret 12 /\
  get_affinity_value (Some table4) false 8888 77 = Ret 0 /\
  Affinity.query_partition (Some table4) 8888 = Ret 4294967295.
Proof.
  destruct (get_affinity_value_not_found table4 2 77) as (Hfound & _ & _).
  { exact table4_reachable. }
  { simpl. lia. }
  destruct (get_affinity_value_not_found table4 8888 77) as (_ & Hmiss & _).
  { exact table4_reachable. }
  { simpl. lia. }
  destruct (Hfound 12) as [H1 H2].
  { unfold entries. simpl. repeat constructor. }
  destruct Hmiss as [H3 H4].
  { apply (bool_decide_unpack _). vm_compute. exact I. }
  repeat split; assumption.
Defined.

(** * gen_txt.c *)

Lemma rand_index (r : Z) (i : nat) :
  0 <= r -> 0 <= Z.rem r (Z.of_nat i + 1) <= Z.of_nat i.
Proof.
  intros Hr. rewrite Z.rem_mod_nonneg by lia.
  pose proof (Z.mod_pos_bound r (Z.of_nat i + 1)). lia.
Qed.

Lemma swap_cells_spec (array : list Z) (i j : nat) :
  (j <= i < length array)%nat ->
  exists array',
    swap_cells array (Z.of_nat i) (Z.of_nat j) = Ret array' /\
    array' ≡ₚ array /\ length array' = length array /\
    drop (S i) array' = drop (S i) array.
Proof.
  intros Hij. unfold swap_cells.
  destruct (lookup_lt_is_Some_2 array i) as [ai Hi]; [lia|].
  destruct (lookup_lt_is_Some_2 array j) as [aj Hj]; [lia|].
  replace (Z.of_nat i <? 0) with false by lia.
  replace (Z.of_nat j <? 0) with false by lia.
  simpl. rewrite !Nat2Z.id, Hi, Hj.
  eexists. split; [reflexivity|]. split; [|split].
  - by apply Permutation_insert_swap.
  - by rewrite !length_insert.
  - by rewrite !drop_insert_lt by lia.
Qed.

Lemma shuffle_from_spec (rand : nat -> Z) (i call : nat) (array : list Z) :
  (forall c, 0 <= rand c) ->
  (i < length array)%nat ->
  exists array',
    shuffle_from i call rand array = Ret array' /\
    array' ≡ₚ array /\ drop (S i) array' = drop (S i) array.
Proof.
  intros Hrand. revert call array.
  induction i as [|i IH]; intros call array Hlen.
  - exists array. done.
  - cbn [shuffle_from].
    pose proof (rand_index (rand call) (S i) (Hrand call)) as Hj.
    set (j := Z.rem (rand call) (Z.of_nat (S i) + 1)) in *.
    destruct (swap_cells_spec array (S i) (Z.to_nat j))
      as (a1 & Hswap & Hp1 & Hl1 & Hd1); [lia|].
    rewrite Z2Nat.id in Hswap by lia. rewrite Hswap, bind_Ret.
    destruct (IH (S call) a1) as (a2 & Hrun & Hp2 & Hd2); [lia|].
    exists a2. split; [exact Hrun|]. split; [by rewrite Hp2|].
    rewrite <- Hd1. replace (S (S i)) with (S i + 1)%nat by lia.
    by rewrite <- !drop_drop, Hd2.
Qed.

Lemma shuffle_from_spec_all (rand : nat -> Z) (array : list Z) (n : Z) :
  (forall c, 0 <= rand c) ->
  - 2 ^ 31 < n <= Z.of_nat (length array) ->
  exists array', shuffle rand array n = Ret array' /\ array' ≡ₚ array.
Proof.
  intros Hrand Hn. unfold shuffle.
  replace (n =? - 2 ^ 31) with false by lia.
  destruct (Z_le_gt_dec n 1) as [Hsmall|Hbig].
  - replace (Z.to_nat (n - 1)) with 0%nat by lia. exists array. done.
  - destruct (shuffle_from_spec rand (Z.to_nat (n - 1)) 0 array Hrand)
      as (a' & Hrun & Hp & _); [lia|].
    exists a'. done.
Qed.

(** X18: [shuffle] only rearranges: for an array of at least [n] cells
    and a [rand()] that returns non-negative values, every access is
    within the first [n] cells and the result is a permutation of the
    array in which the cells from index [n] on are untouched. *)
Theorem shuffle_permutes (rand : nat -> Z) (array : list Z) (n : Z) :
  (forall c, 0 <= rand c) ->
  - 2 ^ 31 < n <= Z.of_nat (length array) ->
  exists array',
    shuffle rand array n = Ret array' /\
    array' ≡ₚ array /\
    drop (Z.to_nat n) array' = drop (Z.to_nat n) array.
Proof.
  intros Hrand Hn. unfold shuffle.
  replace (n =? - 2 ^ 31) with false by lia.
  destruct (Z_le_gt_dec n 1) as [Hsmall|Hbig].
  - replace (Z.to_nat (n - 1)) with 0%nat by lia. exists array. done.
  - destruct (shuffle_from_spec rand (Z.to_nat (n - 1)) 0 array Hrand)
      as (a' & Hrun & Hp & Hd); [lia|].
    exists a'. split; [exact Hrun|]. split; [exact Hp|].
    by replace (Z.to_nat n) with (S (Z.to_nat (n - 1))) by lia.
Qed.

Lemma shuffle_permutes_witness :
  exists array',
    shuffle (fun c => Z.of_nat c + 5) [1; 2; 3; 4; 9] 4 = Ret array' /\
    array' ≡ₚ [1; 2; 3; 4; 9] /\
    drop (Z.to_nat 4) array' = drop (Z.to_nat 4) [1; 2; 3; 4; 9].
Proof.
  apply (shuffle_permutes (fun c => Z.of_nat c + 5) [1; 2; 3; 4; 9] 4).
  - intros c. lia.
  - simpl. lia.
Defined.

Lemma write_lines_spec (numbers : list Z) (call : nat) (rand : nat -> Z) :
  (forall c, 0 <= rand c) ->
  (write_lines numbers call rand).*1 = numbers /\
  Forall (fun p => 0 <= p.2 <= 3) (write_lines numbers call rand).
Proof.
  intros Hrand. revert call.
  induction numbers as [|x numbers IH]; intros call; cbn [write_lines].
  - split; [reflexivity|constructor].
  - destruct (IH (S call)) as [Hk Hv]. split.
    + rewrite fmap_cons. simpl. by rewrite Hk.
    + constructor; [|exact Hv]. simpl.
      rewrite Z.rem_mod_nonneg by (pose proof (Hrand call); lia).
      pose proof (Z.mod_pos_bound (rand call) 4). lia.
Qed.

Lemma generate_file_facts (n : Z) (rand : nat -> Z) :
  0 <= n < 2 ^ 31 ->
  (forall c, 0 <= rand c) ->
  exists lines,
    generate n true true rand = Ret (0, Some lines) /\
    lines.*1 ≡ₚ seqZ 1 n /\
    NoDup lines.*1 /\
    Forall (fun p => 0 <= p.2 <= 3) lines.
Proof.
  intros Hn Hrand.
  destruct (shuffle_from_spec_all rand (seqZ 1 n) n Hrand) as (a & Hsh & Hp).
  { rewrite length_seqZ. lia. }
  unfold generate. rewrite Hsh, bind_Ret.
  destruct (write_lines_spec a (Z.to_nat (n - 1)) rand Hrand) as [Hk Hv].
  eexists. split; [reflexivity|]. split; [by rewrite Hk|]. split; [|exact Hv].
  rewrite Hk, Hp. apply NoDup_seqZ.
Qed.

(** X19: when the array is allocated and the file opens, the generator
    ends with status 0 and writes exactly [n] records whose keys are the
    numbers 1 to [n], each once, and whose values lie in 0..3; when the
    file does not open it ends with status 1 and writes nothing, as when
    the allocation fails. *)
Theorem generate_distinct_keys (n : Z) (rand : nat -> Z) :
  0 <= n < 2 ^ 31 ->
  (forall c, 0 <= rand c) ->
  (exists lines,
     generate n true true rand = Ret (0, Some lines) /\
     length lines = Z.to_nat n /\
     lines.*1 ≡ₚ seqZ 1 n /\
     NoDup lines.*1 /\
     Forall (fun p => 0 <= p.2 <= 3) lines) /\
  generate n true false rand = Ret (1, None) /\
  generate n false true rand = Ret (1, None).
Proof.
  intros Hn Hrand.
  destruct (generate_file_facts n rand Hn Hrand)
    as (lines & Hgen & Hperm & Hnd & Hval).
  split.
  - exists lines. split; [exact Hgen|]. split; [|done].
    rewrite <- (length_fmap fst), Hperm. apply length_seqZ.
  - destruct (shuffle_from_spec_all rand (seqZ 1 n) n Hrand) as (a & Hsh & _).
    { rewrite length_seqZ. lia. }
    unfold generate. by rewrite Hsh.
Qed.

Lemma generate_distinct_keys_witness :
  (exists lines,
     gen_main true true (fun c => Z.of_nat c) = Ret (0, Some lines) /\
     length lines = Z.to_nat 10000 /\
     lines.*1 ≡ₚ seqZ 1 10000 /\
     NoDup lines.*1 /\
     Forall (fun p => 0 <= p.2 <= 3) lines) /\
  gen_main true false (fun c => Z.of_nat c) = Ret (1, None) /\
  gen_main false true (fun c => Z.of_nat c) = Ret (1, None).
Proof.
  apply (generate_distinct_keys 10000 (fun c => Z.of_nat c)).
  - lia.
  - intros c. lia.
Defined.

(** X20: the generator and the loader fit together.  When the records
    that the generator writes for [n] numbers are loaded by
    [init_partition_map] into a map that does not exist yet, the node
    allocations succeeding, the call returns true and [query_partition]
    returns, for every record, the value written beside its key, and
    [(affinity_value_t) -1] for every key outside 1..n. *)
Theorem generated_file_loads
    (n : Z) (rand : nat -> Z) (lines : list (Z * Z))
    (records : list map_line) :
  0 <= n < 2 ^ 31 ->
  (forall c, 0 <= rand c) ->
  generate n true true rand = Ret (0, Some lines) ->
  (fun l => (line_key l, line_value l)) <$> records = lines ->
  Forall (fun l => line_malloc l = true) records ->
  exists ht,
    init_partition_map true true (Some records) None
    = Ret (Return true (Some ht)) /\
    (forall k v, (k, v) ∈ lines ->
        Affinity.query_partition (Some ht) k = Ret v) /\
    (forall k, ~ 1 <= k <= n ->
        Affinity.query_partition (Some ht) k = Ret (wrap32 (-1))).
Proof.
  intros Hn Hrand Hgen Hrec Hall.
  destruct (generate_file_facts n rand Hn Hrand)
    as (lines' & Hgen' & Hperm & Hnd & Hval).
  assert (lines' = lines) by congruence. subst lines'.
  assert (line_key <$> records = lines.*1) as Hkeys.
  { rewrite <- Hrec, <- list_fmap_compose. reflexivity. }
  destruct (ht_create true true Affinity.INIT_BULK_SIZE) as [ht0|] eqn:Hcr;
    [|discriminate].
  assert (0 <= Affinity.INIT_BULK_SIZE) as Hnn
    by (unfold Affinity.INIT_BULK_SIZE; lia).
  destruct (ht_create_wf true true _ ht0 Hnn Hcr) as (Hwf0 & Hsz0 & Hct0).
  assert (0 < size ht0) as Hpos0
    by (rewrite Hsz0; unfold Affinity.INIT_BULK_SIZE; lia).
  assert (reachable ht0) as Hr0.
  { apply (reachable_create true true Affinity.INIT_BULK_SIZE);
      [unfold Affinity.INIT_BULK_SIZE; lia|exact Hcr]. }
  destruct (load_lines_spec records ht0 Hr0 Hpos0 Hall)
    as (ht & Hrun & Hr & Hpos & Hct).
  pose proof (reachable_wf ht Hr) as Hwf.
  exists ht. split.
  { unfold init_partition_map. rewrite Hcr. exact Hrun. }
  split.
  - intros k v Hkv. rewrite <- Hrec in Hkv.
    apply list_elem_of_fmap in Hkv as (l & Hl & Hin).
    injection Hl as -> ->.
    apply list_elem_of_split in Hin as (pre & post & ->).
    assert (line_key l ∉ line_key <$> post) as Hlast.
    { rewrite <- Hkeys in Hnd. rewrite fmap_app, fmap_cons in Hnd.
      apply NoDup_app in Hnd as (_ & _ & Hnd).
      by apply NoDup_cons in Hnd as [Hnd _]. }
    rewrite (query_partition_contents ht _ Hwf Hpos), Hct.
    rewrite (foldl_insert_last pre post l _ Hlast). simpl. f_equal.
    assert (0 <= line_value l <= 3) as Hv.
    { rewrite Forall_forall in Hval.
      apply (Hval (line_key l, line_value l)). rewrite <- Hrec.
      apply (list_elem_of_fmap_2 (fun l => (line_key l, line_value l))).
      rewrite elem_of_app. right. left. }
    unfold wrap32. apply Z.mod_small. lia.
  - intros k Hk.
    rewrite (query_partition_contents ht _ Hwf Hpos), Hct.
    rewrite foldl_insert_other, Hct0, lookup_empty; [reflexivity|].
    rewrite Hkeys, Hperm, elem_of_seqZ. lia.
Qed.

Lemma generated_file_loads_witness :
  generate 3 true true (fun c => Z.of_nat c)
  = Ret (0, Some [(3, 2); (2, 3); (1, 0)]) /\
  exists ht,
    init_partition_map true true
      (Some [ {| line_key := 3; line_value := 2;
                 line_calloc := true; line_malloc := true |};
              {| line_key := 2; line_value := 3;
                 line_calloc := true; line_malloc := true |};
              {| line_key := 1; line_value := 0;
                 line_calloc := true; line_malloc := true |} ])
      None
    = Ret (Return true (Some ht)) /\
    (forall k v, (k, v) ∈ [(3, 2); (2, 3); (1, 0)] ->
        Affinity.query_partition (Some ht) k = Ret v) /\
    (forall k, ~ 1 <= k <= 3 ->
        Affinity.query_partition (Some ht) k = Ret (wrap32 (-1))).
Proof.
  assert (generate 3 true true (fun c => Z.of_nat c)
          = Ret (0, Some [(3, 2); (2, 3); (1, 0)])) as Hgen
    by (vm_compute; reflexivity).
  split; [exact Hgen|].
  apply (generated_file_loads 3 (fun c => Z.of_nat c) [(3, 2); (2, 3); (1, 0)]).
  - lia.
  - intros c. lia.
  - exact Hgen.
  - reflexivity.
  - repeat constructor.
Defined.
